(** * remove_auth.py: regular-expression clean-up of TypeScript route files

    A shallow embedding of [src/remove_auth.py].  The script reads a file,
    applies four import-removing substitutions, two guard-removing
    substitutions and one blank-line substitution (all with [re.sub]),
    writes the file back when the text changed, and counts the files it
    rewrote.

    Text is a list of Unicode code points, as a Python [str] is.  The
    regular expressions of the script only use literals, one-character
    classes under a quantifier, and one capturing group; they are embedded
    as lists of atoms and run by a backtracking matcher with the priorities
    of Python's [re] (leftmost start, greedy quantifiers).  The flags
    MULTILINE and DOTALL change the meaning of the anchors and of the dot
    only, and no pattern of the script has either, so they do not show in
    the embedding.  Reading, writing and printing can raise. *)

From Stdlib Require Import Ascii String.
From Stdlib Require Import List NArith Bool Arith Lia.
Import ListNotations.

Local Open Scope string_scope.
Local Open Scope list_scope.
Local Open Scope N_scope.

(** ** Text *)

Definition char := N.
Definition text := list char.

Fixpoint str (s : string) : text :=
  match s with
  | EmptyString => []
  | String a r => N_of_ascii a :: str r
  end.

Definition NL : char := 10.

(** ** Character classes *)

(** [\s] on a [str] pattern is [Py_UNICODE_ISSPACE]. *)
Definition is_space (c : char) : bool :=
  ((9 <=? c) && (c <=? 13)) || ((28 <=? c) && (c <=? 32))
  || (c =? 133) || (c =? 160) || (c =? 5760)
  || ((8192 <=? c) && (c <=? 8202))
  || (c =? 8232) || (c =? 8233) || (c =? 8239) || (c =? 8287) || (c =? 12288).

Definition ascii_word (c : char) : bool :=
  ((48 <=? c) && (c <=? 57)) || ((65 <=? c) && (c <=? 90))
  || ((97 <=? c) && (c <=? 122)) || (c =? 95).

Inductive cclass : Type :=
  | Lit (c : char)            (* a literal character *)
  | Space                     (* \s *)
  | Word                      (* \w *)
  | NotChar (c : char)        (* [^c] *)
  | OneOf (cs : list char).   (* [...] *)

Inductive quant : Type := One | Opt | Star | Plus.

Inductive atom : Type :=
  | A (c : cclass) (q : quant)
  | GOpen                     (* group 1 opens *)
  | GClose.                   (* group 1 closes *)

Definition regex := list atom.

(** The two ends of group 1, each as the text that remained when the
    matcher passed it. *)
Definition caps : Type := (option text * option text)%type.

Section Matcher.

(** [\w] is [Py_UNICODE_ISALNUM] or underscore.  Below 128 that is
    [ascii_word]; above, it is a table of the Unicode database, which is
    not part of the script and is taken as a parameter. *)
Variable unicode_alnum : char -> bool.

Definition is_word (c : char) : bool :=
  if c <? 128 then ascii_word c else unicode_alnum c.

Definition cc (k : cclass) (c : char) : bool :=
  match k with
  | Lit d => c =? d
  | Space => is_space c
  | Word => is_word c
  | NotChar d => negb (c =? d)
  | OneOf cs => existsb (N.eqb c) cs
  end.

(** Greedy repetition of a one-character class: take as many characters as
    the class allows, and give them back one at a time while the rest of
    the pattern ([k]) fails. *)
Fixpoint star (k : cclass) (rest : text -> option (caps * text)) (s : text)
  : option (caps * text) :=
  match s with
  | c :: s' =>
      if cc k c then
        match star k rest s' with
        | Some r => Some r
        | None => rest s
        end
      else rest s
  | [] => rest s
  end.

(** [match_at p s g]: the pattern [p] matched at the start of [s]; the
    result is the group ends and the text after the match. *)
Fixpoint match_at (p : regex) (s : text) (g : caps) : option (caps * text) :=
  match p with
  | [] => Some (g, s)
  | GOpen :: p' => match_at p' s (Some s, snd g)
  | GClose :: p' => match_at p' s (fst g, Some s)
  | A k One :: p' =>
      match s with
      | c :: s' => if cc k c then match_at p' s' g else None
      | [] => None
      end
  | A k Opt :: p' =>
      match s with
      | c :: s' =>
          if cc k c then
            match match_at p' s' g with
            | Some r => Some r
            | None => match_at p' s g
            end
          else match_at p' s g
      | [] => match_at p' s g
      end
  | A k Star :: p' => star k (fun t => match_at p' t g) s
  | A k Plus :: p' =>
      match s with
      | c :: s' => if cc k c then star k (fun t => match_at p' t g) s' else None
      | [] => None
      end
  end.

(** ** Replacement templates and [re.sub] *)

Inductive ritem : Type :=
  | RChar (c : char)
  | RGroup1.                  (* \1 *)

Definition template := list ritem.

(** The text between two positions of the same string, both given as the
    text that remains. *)
Definition between (from to : text) : text :=
  firstn (length from - length to) from.

Definition group1 (g : caps) : text :=
  match g with
  | (Some a, Some b) => between a b
  | _ => []
  end.

Definition expand (t : template) (g : caps) : text :=
  flat_map (fun i => match i with RChar c => [c] | RGroup1 => group1 g end) t.

(** [re.sub(p, t, s)]: replace the non-overlapping matches of [p] from left
    to right.  A match that consumed nothing is replaced and the scan moves
    one character on; no pattern of the script matches the empty text (see
    [patterns_consume]).  [fuel] bounds the number of scan steps. *)
Fixpoint sub_fuel (fuel : nat) (p : regex) (t : template) (s : text) : text :=
  match fuel with
  | O => s
  | S fuel' =>
      match match_at p s (None, None) with
      | Some (g, r) =>
          if (length r <? length s)%nat
          then expand t g ++ sub_fuel fuel' p t r
          else match s with
               | [] => expand t g
               | c :: s' => expand t g ++ c :: sub_fuel fuel' p t s'
               end
      | None =>
          match s with
          | [] => []
          | c :: s' => c :: sub_fuel fuel' p t s'
          end
      end
  end.

Definition sub (p : regex) (t : template) (s : text) : text :=
  sub_fuel (S (length s)) p t s.

(** [re.search(p, s)] finds a match: used to say that a pattern appears. *)
Fixpoint search (p : regex) (s : text) : bool :=
  match match_at p s (None, None) with
  | Some _ => true
  | None => match s with [] => false | _ :: s' => search p s' end
  end.

End Matcher.

(** ** The patterns of the script *)

Definition lit (s : string) : regex := map (fun c => A (Lit c) One) (str s).
Definition ws : regex := [A Space Star].          (* \s* *)
Definition ws1 : regex := [A Space Plus].         (* \s+ *)
Definition quote : regex := [A (OneOf [39; 34]) One].   (* the class of the two quote characters *)
Definition args : regex :=                        (* an open parenthesis, any characters but the closing one, the closing one *)
  lit "(" ++ [A (NotChar 41) Star] ++ lit ")".

(** Line 16 to 19, with NAMES one of the four name lists and Q the quote
    class:  import\s*\{\s* NAMES \s*\}\s*from\s* Q @/lib/auth/simple-auth Q ;\s*\n?  *)
Definition import_pattern (names : regex) : regex :=
  lit "import" ++ ws ++ lit "{" ++ ws ++ names ++ ws ++ lit "}" ++ ws
  ++ lit "from" ++ ws ++ quote ++ lit "@/lib/auth/simple-auth" ++ quote
  ++ lit ";" ++ ws ++ [A (Lit NL) Opt].

Definition auth_imports : list regex :=
  [ import_pattern (lit "requireAuth");
    import_pattern (lit "requireAdmin");
    import_pattern (lit "requireAuth," ++ ws ++ lit "requireAdmin");
    import_pattern (lit "requireAdmin," ++ ws ++ lit "requireAuth") ].

(** Lines 28 and 29.  Group 1 is the function header,
      export\s+async\s+function\s+\w+ ARGS \s*\{\s*
    and the guard that follows it is, with CALL one of requireAuth and
    requireAdmin,
      \s*const\s+auth\s*=\s* CALL ARGS ;\s*if\s*\(\s*!auth\.isValid\s*\)\s*\{\s*
      return\s+auth\.response!\s*;\s*\}  *)
Definition header : regex :=
  lit "export" ++ ws1 ++ lit "async" ++ ws1 ++ lit "function" ++ ws1
  ++ [A Word Plus] ++ args ++ ws ++ lit "{" ++ ws.

Definition guard (call : string) : regex :=
  ws ++ lit "const" ++ ws1 ++ lit "auth" ++ ws ++ lit "=" ++ ws
  ++ lit call ++ args ++ lit ";" ++ ws ++ lit "if" ++ ws ++ lit "(" ++ ws
  ++ lit "!auth.isValid" ++ ws ++ lit ")" ++ ws ++ lit "{" ++ ws
  ++ lit "return" ++ ws1 ++ lit "auth.response!" ++ ws ++ lit ";" ++ ws
  ++ lit "}".

Definition guard_pattern (call : string) : regex :=
  [GOpen] ++ header ++ [GClose] ++ guard call.

Definition auth_check_patterns : list regex :=
  [ guard_pattern "requireAuth"; guard_pattern "requireAdmin" ].

(** \n\s*\n\s*\n *)
Definition blank_lines : regex :=
  [A (Lit NL) One] ++ ws ++ [A (Lit NL) One] ++ ws ++ [A (Lit NL) One].

Section Transform.

Variable unicode_alnum : char -> bool.

(** for pattern in auth_imports: content = re.sub(pattern, '', content) *)
Definition remove_imports (content : text) : text :=
  fold_left (fun c p => sub unicode_alnum p [] c) auth_imports content.

(** for pattern in auth_check_patterns: content = re.sub(pattern, r'\1', content) *)
Definition remove_guards (content : text) : text :=
  fold_left (fun c p => sub unicode_alnum p [RGroup1] c) auth_check_patterns content.

(** content = re.sub(r'\n\s*\n\s*\n', '\n\n', content) *)
Definition collapse_blank_lines (content : text) : text :=
  sub unicode_alnum blank_lines [RChar NL; RChar NL] content.

(** Lines 14 to 36: the text the script compares with the original. *)
Definition transform (content : text) : text :=
  collapse_blank_lines (remove_guards (remove_imports content)).

End Transform.

(** ** Files, console and exceptions *)

Definition path := text.

(** An exception, as far as the script looks at it: the text of [str(e)]. *)
Record exn : Type := Exn { exn_text : text }.

(** What writing a file does: it succeeds; or [open(path, 'w')] raises and
    the file stays as it is; or the write raises after the file was
    truncated, and leaves some text in it. *)
Inductive write_outcome : Type :=
  | Written
  | OpenFails (e : exn)
  | WriteFails (e : exn) (remains : text).

(** What the file system answers for one path: the text [f.read()] returns
    (after the translation of line ends that text mode does), or the
    exception that [open(path, 'r')] or the read raises; and what writing
    the file does. *)
Record file : Type := File {
  on_read : exn + text;
  on_write : write_outcome
}.

(** The standard output is given by the lines it has taken and by what it
    does with the next one: [stdout w h l] is the exception that printing
    the line [l] raises when [h] has been printed (an encoding that lacks a
    character of [l], a closed pipe), if any. *)
Record world : Type := World {
  files : path -> file;
  console : list text;         (* the printed lines, oldest first *)
  stdout : list text -> text -> option exn
}.

Definition text_eqb (a b : text) : bool :=
  if list_eq_dec N.eq_dec a b then true else false.

(** A computation of the script: it runs in a world and either raises or
    returns. *)
Definition M (X : Type) : Type := world -> (exn + X) * world.

Definition ret {X} (x : X) : M X := fun w => (inr x, w).

Definition bind {X Y} (m : M X) (k : X -> M Y) : M Y :=
  fun w => match m w with
           | (inl e, w') => (inl e, w')
           | (inr x, w') => k x w'
           end.

Notation "x <- m ;; k" := (bind m (fun x => k))
  (at level 61, m at next level, right associativity).
Notation "m ;;; k" := (bind m (fun _ => k))
  (at level 61, right associativity).

(** try: body / except Exception as e: handler *)
Definition try_except {X} (body : M X) (handler : exn -> M X) : M X :=
  fun w => match body w with
           | (inl e, w') => handler e w'
           | r => r
           end.

(** with open(p, 'r') as f: f.read() *)
Definition read_text (p : path) : M text :=
  fun w => (on_read (files w p), w).

(** with open(p, 'w') as f: f.write(c) *)
Definition write_text (p : path) (c : text) : M unit :=
  fun w => match on_write (files w p) with
           | Written =>
               (inr tt,
                World (fun q => if text_eqb q p
                                then File (inr c) Written else files w q)
                      (console w) (stdout w))
           | OpenFails e => (inl e, w)
           | WriteFails e remains =>
               (inl e,
                World (fun q => if text_eqb q p
                                then File (inr remains) (WriteFails e remains)
                                else files w q)
                      (console w) (stdout w))
           end.

(** print(line): the line is added to the console, unless the standard
    output raises on it. *)
Definition print (line : text) : M unit :=
  fun w => match stdout w (console w) line with
           | Some e => (inl e, w)
           | None => (inr tt, World (files w) (console w ++ [line]) (stdout w))
           end.

Definition CHECK : char := 10003.    (* U+2713 *)
Definition CROSS : char := 10007.    (* U+2717 *)

Definition removed_line (p : path) : text :=
  CHECK :: str " Removed auth from " ++ p.

Definition error_line (p : path) (e : exn) : text :=
  CROSS :: str " Error processing " ++ p ++ str ": " ++ exn_text e.

Fixpoint digits (fuel n : nat) (acc : text) : text :=
  match fuel with
  | O => acc
  | S fuel' =>
      let acc' := (48 + N.of_nat (n mod 10)) :: acc in
      if (n <? 10)%nat then acc' else digits fuel' (n / 10) acc'
  end.

(** The decimal numeral of a count, as an f-string formats it. *)
Definition decimal (n : nat) : text := digits (S n) n [].

Section Script.

Variable unicode_alnum : char -> bool.

Definition remove_auth_from_file (file_path : path) : M bool :=
  try_except
    (content <- read_text file_path ;;
     let original_content := content in
     let content := transform unicode_alnum content in
     if negb (text_eqb content original_content) then
       write_text file_path content ;;;
       print (removed_line file_path) ;;;
       ret true
     else ret false)
    (fun e =>
       print (error_line file_path e) ;;;
       ret false).

(** for file_path in ts_files: if remove_auth_from_file(file_path):
    modified_count += 1 *)
Fixpoint count_modified (ts_files : list path) (modified_count : nat) : M nat :=
  match ts_files with
  | [] => ret modified_count
  | file_path :: rest =>
      b <- remove_auth_from_file file_path ;;
      count_modified rest (if b then S modified_count else modified_count)
  end.

(** [main], with the list that [glob.glob] returned. *)
Definition main (ts_files : list path) : M unit :=
  print (str "Found " ++ decimal (length ts_files)
         ++ str " TypeScript files in API directory") ;;;
  modified_count <- count_modified ts_files 0%nat ;;
  print (NL :: str "Modified " ++ decimal modified_count ++ str " files").

(** The exit status of the process: 1 when an exception leaves [main]. *)
Definition exit_status (ts_files : list path) (w : world) : N :=
  match main ts_files w with
  | (inl _, _) => 1
  | (inr _, _) => 0
  end.

End Script.

(** ** What a pattern can match

    [matches p s g g' r]: some way of running [p] on [s], backtracking
    priorities apart, ends with [r] left and the group ends [g'].  The
    matcher returns the first of these ways. *)
Inductive matches (ua : char -> bool)
  : regex -> text -> caps -> caps -> text -> Prop :=
  | M_end s g : matches ua [] s g g s
  | M_open p s g g' r :
      matches ua p s (Some s, snd g) g' r -> matches ua (GOpen :: p) s g g' r
  | M_close p s g g' r :
      matches ua p s (fst g, Some s) g' r -> matches ua (GClose :: p) s g g' r
  | M_one k p c s g g' r :
      cc ua k c = true -> matches ua p s g g' r ->
      matches ua (A k One :: p) (c :: s) g g' r
  | M_opt_skip k p s g g' r :
      matches ua p s g g' r -> matches ua (A k Opt :: p) s g g' r
  | M_opt_take k p c s g g' r :
      cc ua k c = true -> matches ua p s g g' r ->
      matches ua (A k Opt :: p) (c :: s) g g' r
  | M_star_stop k p s g g' r :
      matches ua p s g g' r -> matches ua (A k Star :: p) s g g' r
  | M_star_more k p c s g g' r :
      cc ua k c = true -> matches ua (A k Star :: p) s g g' r ->
      matches ua (A k Star :: p) (c :: s) g g' r
  | M_plus k p c s g g' r :
      cc ua k c = true -> matches ua (A k Star :: p) s g g' r ->
      matches ua (A k Plus :: p) (c :: s) g g' r.

(** The least number of characters a pattern consumes. *)
Fixpoint min_len (p : regex) : nat :=
  match p with
  | [] => 0
  | A _ One :: p' | A _ Plus :: p' => S (min_len p')
  | _ :: p' => min_len p'
  end.

(** ** Texts and worlds used in the statements below *)

(** The function of the running example and what the script makes of it. *)
Definition guarded_GET : text :=
  str "export async function GET(req) {" ++ [NL]
  ++ str "  const auth = requireAuth(req);" ++ [NL]
  ++ str "  if (!auth.isValid) {" ++ [NL]
  ++ str "    return auth.response!;" ++ [NL]
  ++ str "  }" ++ [NL]
  ++ str "  return doWork();" ++ [NL]
  ++ str "}".


Definition stripped_GET : text :=
  str "export async function GET(req) {" ++ [NL]
  ++ str "  " ++ [NL]
  ++ str "  return doWork();" ++ [NL]
  ++ str "}".

(** A Unicode table for the concrete runs (they only hold ASCII text). *)
Definition no_unicode_alnum : char -> bool := fun _ => false.

(** A world with one writable file, and one where nothing can be read. *)
Definition one_file (p : path) (c : text) : world :=
  World (fun q => if text_eqb q p then File (inr c) Written
                  else File (inl (Exn (str "No such file or directory")))
                            Written)
        [] (fun _ _ => None).

Definition locked_file (p : path) (c : text) : world :=
  World (fun q => if text_eqb q p
                  then File (inr c) (OpenFails (Exn (str "Permission denied")))
                  else File (inl (Exn (str "No such file or directory")))
                            Written)
        [] (fun _ _ => None).

Definition route_ts : path := str "route.ts".

(** No import pattern and no guard pattern appears in the text. *)
Definition no_auth_pattern (ua : char -> bool) (s : text) : bool :=
  forallb (fun p => negb (search ua p s)) (auth_imports ++ auth_check_patterns).

(** The files the script rewrites: readable, changed by [transform], and
    writable. *)
Definition rewritten (ua : char -> bool) (w : world) (p : path) : bool :=
  match on_read (files w p), on_write (files w p) with
  | inr c, Written => negb (text_eqb (transform ua c) c)
  | _, _ => false
  end.

Definition missing_ts : path := str "missing.ts".

Definition three_newlines : text := str "a" ++ [NL; NL; NL] ++ str "b".

(** ** White-space runs

    [nl_run s] counts the newlines in the white space that [s] starts with;
    a text is [tidy] when no position of it is followed by white space with
    more than two newlines. *)
Fixpoint nl_run (s : text) : nat :=
  match s with
  | c :: s' =>
      if is_space c
      then Nat.add (if c =? NL then 1%nat else 0%nat) (nl_run s')
      else 0%nat
  | [] => 0%nat
  end.

Fixpoint tidy (s : text) : bool :=
  (nl_run s <=? 2)%nat && match s with [] => true | _ :: s' => tidy s' end.

Definition spaces (w : text) : Prop := Forall (fun c => is_space c = true) w.

(** [hard_end a]: [a] is empty or ends with a character that is no white
    space; [hard_start b] likewise for the first character; [no_nl l]: no
    newline in [l]. *)
Fixpoint hard_end (a : text) : bool :=
  match a with
  | [] => true
  | [c] => negb (is_space c)
  | _ :: a' => hard_end a'
  end.

Definition hard_start (b : text) : bool :=
  match b with
  | [] => true
  | c :: _ => negb (is_space c)
  end.

Definition no_nl (l : text) : Prop := Forall (fun c => c <> NL) l.

(** ** The matcher with its continuation made explicit

    [match_k p K s g] runs [p] on [s] and hands what is left to [K]; it is
    [match_at] with the rest of the pattern abstracted, and serves to run
    the front of a pattern on the known front of a text. *)
Fixpoint match_k (ua : char -> bool) (p : regex)
         (K : text -> caps -> option (caps * text)) (s : text) (g : caps)
  : option (caps * text) :=
  match p with
  | [] => K s g
  | GOpen :: p' => match_k ua p' K s (Some s, snd g)
  | GClose :: p' => match_k ua p' K s (fst g, Some s)
  | A k One :: p' =>
      match s with
      | c :: s' => if cc ua k c then match_k ua p' K s' g else None
      | [] => None
      end
  | A k Opt :: p' =>
      match s with
      | c :: s' =>
          if cc ua k c then
            match match_k ua p' K s' g with
            | Some r => Some r
            | None => match_k ua p' K s g
            end
          else match_k ua p' K s g
      | [] => match_k ua p' K s g
      end
  | A k Star :: p' => star ua k (fun t => match_k ua p' K t g) s
  | A k Plus :: p' =>
      match s with
      | c :: s' =>
          if cc ua k c then star ua k (fun t => match_k ua p' K t g) s'
          else None
      | [] => None
      end
  end.

(** The text without the white space it starts with. *)
Fixpoint drop_space (s : text) : text :=
  match s with
  | c :: s' => if is_space c then drop_space s' else s
  | [] => []
  end.

(** An import pattern up to its semicolon; the rest of it is white space and
    an optional newline. *)
Definition import_front (names : regex) : regex :=
  lit "import" ++ ws ++ lit "{" ++ ws ++ names ++ ws ++ lit "}" ++ ws
  ++ lit "from" ++ ws ++ quote ++ lit "@/lib/auth/simple-auth" ++ quote
  ++ lit ";".

Definition names_auth : regex := lit "requireAuth".
Definition names_admin : regex := lit "requireAdmin".
Definition names_auth_admin : regex :=
  lit "requireAuth," ++ ws ++ lit "requireAdmin".
Definition names_admin_auth : regex :=
  lit "requireAdmin," ++ ws ++ lit "requireAuth".

(** The four import statements as they are usually written. *)
Definition import_auth : text :=
  str "import { requireAuth } from '@/lib/auth/simple-auth';".
Definition import_admin : text :=
  str "import { requireAdmin } from '@/lib/auth/simple-auth';".
Definition import_auth_admin : text :=
  str "import { requireAuth, requireAdmin } from '@/lib/auth/simple-auth';".
Definition import_admin_auth : text :=
  str "import { requireAdmin, requireAuth } from '@/lib/auth/simple-auth';".

(** A pattern without group marks. *)
Definition no_group (p : regex) : Prop :=
  Forall (fun a => match a with A _ _ => True | _ => False end) p.

(** Every match of [p] is replaced by a shorter text. *)
Definition shrinking (ua : char -> bool) (p : regex) (t : template) : Prop :=
  forall s g r,
    match_at ua p s (None, None) = Some (g, r) ->
    (length (expand t g) + length r < length s)%nat.

(** The header pattern up to its opening brace. *)
Definition header_front : regex :=
  lit "export" ++ ws1 ++ lit "async" ++ ws1 ++ lit "function" ++ ws1
  ++ [A Word Plus] ++ args ++ ws.

(** The guard pattern after its [const]. *)
Definition guard_rest (call : string) : regex :=
  ws1 ++ lit "auth" ++ ws ++ lit "=" ++ ws
  ++ lit call ++ args ++ lit ";" ++ ws ++ lit "if" ++ ws ++ lit "(" ++ ws
  ++ lit "!auth.isValid" ++ ws ++ lit ")" ++ ws ++ lit "{" ++ ws
  ++ lit "return" ++ ws1 ++ lit "auth.response!" ++ ws ++ lit ";" ++ ws
  ++ lit "}".

Definition const_x : text := str "const x = 1;" ++ [NL].

(** The guard of the running example, from its [const] to the end of the
    file, and the file behind the guard. *)
Definition guarded_GET_body : text :=
  str "const auth = requireAuth(req);" ++ [NL]
  ++ str "  if (!auth.isValid) {" ++ [NL]
  ++ str "    return auth.response!;" ++ [NL]
  ++ str "  }" ++ [NL]
  ++ str "  return doWork();" ++ [NL]
  ++ str "}".

Definition guarded_GET_rest : text :=
  [NL] ++ str "  return doWork();" ++ [NL] ++ str "}".

(** A guard that stands behind another statement. *)
Definition late_guard : text :=
  str "export async function GET(req) {" ++ [NL]
  ++ str "  foo();" ++ [NL]
  ++ str "  const auth = requireAuth(req);" ++ [NL]
  ++ str "  if (!auth.isValid) {" ++ [NL]
  ++ str "    return auth.response!;" ++ [NL]
  ++ str "  }" ++ [NL]
  ++ str "  return doWork();" ++ [NL]
  ++ str "}".





(** A two-name import written inside another one: the same text before and
    behind, once around each order. *)
Definition around_before : text := str "import { requireAdmin, ".
Definition around_behind : text :=
  str "requireAuth } from '@/lib/auth/simple-auth';".
Definition nested_auth_admin : text :=
  around_before ++ import_auth_admin ++ around_behind.
Definition nested_admin_auth : text :=
  around_before ++ import_admin_auth ++ around_behind.

(** No match of an import pattern begins in [pre], whatever follows it: the
    import step copies [pre] and works on what follows. *)
Definition import_free (ua : char -> bool) (pre : text) : Prop :=
  forall p y, In p auth_imports ->
              sub ua p [] (pre ++ y) = pre ++ sub ua p [] y.

Definition comment_line : text := str "// api routes" ++ [NL].

(** Texts for the sample runs. *)
Definition spaced_run : text := str "a " ++ NL :: str " " ++ NL :: str " " ++ NL :: str " b".
Definition spaced_run_collapsed : text := str "a " ++ [NL; NL] ++ str " b".

(** An import line followed by three blank lines and a statement. *)
Definition import_then_blank_lines : text :=
  import_auth ++ [NL; NL; NL; NL] ++ const_x.

(** ** Deleting characters

    [subseq a b]: [a] is [b] with some characters deleted. *)
Inductive subseq : text -> text -> Prop :=
  | subseq_nil : subseq [] []
  | subseq_keep c a b : subseq a b -> subseq (c :: a) (c :: b)
  | subseq_drop c a b : subseq a b -> subseq a (c :: b).

(** Every match of [p] is replaced by some of its own characters. *)
Definition deleting (ua : char -> bool) (p : regex) (t : template) : Prop :=
  forall s g r,
    match_at ua p s (None, None) = Some (g, r) ->
    (length r < length s)%nat
    /\ exists m, s = m ++ r /\ subseq (expand t g) m.

Definition not_space (c : char) : bool := negb (is_space c).

(** ** What one call prints and leaves

    [report ua w p]: the lines a call on [p] prints in [w]: the success
    line, an error line, or nothing.  [file_after ua f]: the file a call
    leaves. *)
Definition report (ua : char -> bool) (w : world) (p : path) : list text :=
  match on_read (files w p) with
  | inl e => [error_line p e]
  | inr c =>
      if text_eqb (transform ua c) c then []
      else match on_write (files w p) with
           | Written => [removed_line p]
           | OpenFails e => [error_line p e]
           | WriteFails e _ => [error_line p e]
           end
  end.

Definition file_after (ua : char -> bool) (f : file) : file :=
  match on_read f with
  | inl _ => f
  | inr c =>
      if text_eqb (transform ua c) c then f
      else match on_write f with
           | Written => File (inr (transform ua c)) Written
           | OpenFails _ => f
           | WriteFails e remains => File (inr remains) (WriteFails e remains)
           end
  end.

Definition found_line (n : nat) : text :=
  str "Found " ++ decimal n ++ str " TypeScript files in API directory".

Definition modified_line (k : nat) : text :=
  NL :: str "Modified " ++ decimal k ++ str " files".

Definition two_files : world :=
  World (fun q => if text_eqb q route_ts then File (inr guarded_GET) Written
                  else if text_eqb q (str "plain.ts")
                       then File (inr stripped_GET) Written
                       else File (inl (Exn (str "No such file or directory")))
                                 Written)
        [] (fun _ _ => None).

(** ** Statements in any layout

    The single-name import of requireAuth with any white space between its
    tokens and either quote character on each side, followed by [rest]. *)
Definition import_statement (w1 w2 w3 w4 w5 : text) (q1 q2 : char)
           (rest : text) : text :=
  str "import" ++ w1 ++ str "{" ++ w2 ++ str "requireAuth" ++ w3 ++ str "}"
  ++ w4 ++ str "from" ++ w5 ++ q1 :: str "@/lib/auth/simple-auth"
  ++ q2 :: str ";" ++ rest.

(** The white space of a guarded function, token by token. *)
Record guard_layout : Type := Layout {
  sp_export : text;     (* behind export, not empty *)
  sp_async : text;      (* behind async, not empty *)
  sp_function : text;   (* behind function, not empty *)
  sp_args : text;       (* between the parameters and the brace *)
  sp_brace : text;      (* behind the brace *)
  sp_const : text;      (* behind const, not empty *)
  sp_auth : text;       (* behind auth *)
  sp_eq : text;         (* behind the equals sign *)
  sp_semi : text;       (* behind the first semicolon *)
  sp_if : text;         (* behind if *)
  sp_paren : text;      (* behind the parenthesis of the condition *)
  sp_cond : text;       (* behind the condition *)
  sp_close : text;      (* behind the closing parenthesis *)
  sp_block : text;      (* behind the brace of the block *)
  sp_return : text;     (* behind return, not empty *)
  sp_response : text;   (* behind the returned value *)
  sp_end : text         (* behind the second semicolon *)
}.

Definition layout_ok (L : guard_layout) : Prop :=
  (spaces (sp_export L) /\ sp_export L <> [])
  /\ (spaces (sp_async L) /\ sp_async L <> [])
  /\ (spaces (sp_function L) /\ sp_function L <> [])
  /\ spaces (sp_args L) /\ spaces (sp_brace L)
  /\ (spaces (sp_const L) /\ sp_const L <> [])
  /\ spaces (sp_auth L) /\ spaces (sp_eq L) /\ spaces (sp_semi L)
  /\ spaces (sp_if L) /\ spaces (sp_paren L) /\ spaces (sp_cond L)
  /\ spaces (sp_close L) /\ spaces (sp_block L)
  /\ (spaces (sp_return L) /\ sp_return L <> [])
  /\ spaces (sp_response L) /\ spaces (sp_end L).

(** The header of an exported async function, through the white space
    behind its brace. *)
Definition function_header (L : guard_layout) (name params : text) : text :=
  str "export" ++ sp_export L ++ str "async" ++ sp_async L
  ++ str "function" ++ sp_function L ++ name ++ str "(" ++ params ++ str ")"
  ++ sp_args L ++ str "{" ++ sp_brace L.

(** The two guard statements, followed by [rest]. *)
Definition guard_statements (L : guard_layout) (call : string) (args rest : text)
  : text :=
  str "const" ++ sp_const L ++ str "auth" ++ sp_auth L ++ str "="
  ++ sp_eq L ++ str call ++ str "(" ++ args ++ str ")" ++ str ";"
  ++ sp_semi L ++ str "if" ++ sp_if L ++ str "(" ++ sp_paren L
  ++ str "!auth.isValid" ++ sp_cond L ++ str ")" ++ sp_close L ++ str "{"
  ++ sp_block L ++ str "return" ++ sp_return L ++ str "auth.response!"
  ++ sp_response L ++ str ";" ++ sp_end L ++ str "}" ++ rest.

(** The layout of the running example. *)
Definition example_layout : guard_layout :=
  Layout (str " ") (str " ") (str " ") (str " ") (NL :: str "  ")
         (str " ") (str " ") (str " ") (NL :: str "  ")
         (str " ") [] [] (str " ") (NL :: str "    ")
         (str " ") [] (NL :: str "  ").




(** An import and a guard written without semicolons. *)
Definition no_semicolons : text :=
  str "import { requireAuth } from '@/lib/auth/simple-auth'" ++ [NL]
  ++ str "export async function GET(req) {" ++ [NL]
  ++ str "  const auth = requireAuth(req)" ++ [NL]
  ++ str "  if (!auth.isValid) { return auth.response! }" ++ [NL]
  ++ str "}".

(** ** Consoles

    A console that takes every line; a console whose encoding holds the
    first 256 code points only and refuses a line with any other (the
    success and error lines of the script start with U+2713 and U+2717). *)
Definition quiet (w : world) : Prop := forall h l, stdout w h l = None.

Definition latin1_stdout : list text -> text -> option exn :=
  fun _ l => if existsb (fun c => 255 <? c) l
             then Some (Exn (str "'latin-1' codec can't encode character"))
             else None.

Definition latin1_world (p : path) (c : text) : world :=
  World (fun q => if text_eqb q p then File (inr c) Written
                  else File (inl (Exn (str "No such file or directory")))
                            Written)
        [] latin1_stdout.

(** The handler of the [except] clause. *)
Definition except_handler (file_path : path) (e : exn) : M bool :=
  print (error_line file_path e) ;;; ret false.


(** The four import statements. *)
Definition import_statements : list text :=
  [import_auth; import_admin; import_auth_admin; import_admin_auth].







(** * Properties *)

(** ** The scan of [re.sub] *)

Section SubFacts.

Variable ua : char -> bool.
Variables (p : regex) (t : template).

Lemma sub_fuel_more (n m : nat) (s : text) :
  (length s < n)%nat -> (length s < m)%nat ->
  sub_fuel ua n p t s = sub_fuel ua m p t s.
Proof.
  revert m s. induction n as [|n IH]; intros m s Hn Hm; [lia|].
  destruct m as [|m]; [lia|]. simpl.
  destruct (match_at ua p s (None, None)) as [[g r]|].
  - destruct (Nat.ltb_spec (length r) (length s)).
    + f_equal. apply IH; lia.
    + destruct s as [|c s']; [reflexivity|].
      simpl in *. do 2 f_equal. apply IH; lia.
  - destruct s as [|c s']; [reflexivity|].
    simpl in *. f_equal. apply IH; lia.
Qed.

(** The three equations of the scan. *)
Lemma sub_nil_nomatch :
  match_at ua p [] (None, None) = None -> sub ua p t [] = [].
Proof. unfold sub. simpl. intros ->. reflexivity. Qed.

Lemma sub_skip (c : char) (s : text) :
  match_at ua p (c :: s) (None, None) = None ->
  sub ua p t (c :: s) = c :: sub ua p t s.
Proof.
  intros H. unfold sub. cbn [sub_fuel length]. rewrite H. f_equal.
Qed.

Lemma sub_replace (s r : text) (g : caps) :
  match_at ua p s (None, None) = Some (g, r) ->
  (length r < length s)%nat ->
  sub ua p t s = expand t g ++ sub ua p t r.
Proof.
  intros H Hlt. unfold sub.
  change (sub_fuel ua (S (length s)) p t s) with
    (match match_at ua p s (None, None) with
     | Some (g, r) =>
         if (length r <? length s)%nat
         then expand t g ++ sub_fuel ua (length s) p t r
         else match s with
              | [] => expand t g
              | c :: s' => expand t g ++ c :: sub_fuel ua (length s) p t s'
              end
     | None =>
         match s with
         | [] => []
         | c :: s' => c :: sub_fuel ua (length s) p t s'
         end
     end).
  rewrite H. apply Nat.ltb_lt in Hlt as Hb. rewrite Hb. f_equal.
  apply sub_fuel_more; lia.
Qed.

(** A pattern that appears nowhere leaves the text as it is. *)
Lemma sub_no_match (s : text) :
  search ua p s = false -> sub ua p t s = s.
Proof.
  induction s as [|c s IH]; simpl; intros H.
  - destruct (match_at ua p [] (None, None)) eqn:E; [discriminate|].
    now apply sub_nil_nomatch.
  - destruct (match_at ua p (c :: s) (None, None)) eqn:E; [discriminate|].
    rewrite sub_skip by assumption. now rewrite IH.
Qed.

End SubFacts.

(** ** The matcher against the declarative reading *)

Section MatcherFacts.

Variable ua : char -> bool.

Lemma star_inv (k : cclass) (K : text -> option (caps * text)) (s : text)
      (res : caps * text) :
  star ua k K s = Some res ->
  exists pre u, s = pre ++ u /\ Forall (fun c => cc ua k c = true) pre
                /\ K u = Some res.
Proof.
  revert res. induction s as [|c s IH]; intros res; simpl.
  - intros H. exists [], []. auto.
  - destruct (cc ua k c) eqn:Ec.
    + destruct (star ua k K s) as [r0|] eqn:Es.
      * intros [= <-]. destruct (IH r0 eq_refl) as (pre & u & -> & Hpre & Hu).
        exists (c :: pre), u. auto.
      * intros H. exists [], (c :: s). auto.
    + intros H. exists [], (c :: s). auto.
Qed.

Lemma star_some (k : cclass) (K : text -> option (caps * text))
      (pre u : text) :
  Forall (fun c => cc ua k c = true) pre -> K u <> None ->
  star ua k K (pre ++ u) <> None.
Proof.
  intros Hpre Hu. induction Hpre as [|c pre Hc _ IH]; simpl.
  - destruct u as [|c u]; simpl; [assumption|].
    destruct (cc ua k c); [|assumption].
    destruct (star ua k K u); [discriminate|assumption].
  - rewrite Hc. destruct (star ua k K (pre ++ u)); [discriminate|].
    now elim IH.
Qed.

Lemma matches_star_run (k : cclass) (p : regex) (pre u : text)
      (g g' : caps) (r : text) :
  Forall (fun c => cc ua k c = true) pre ->
  matches ua p u g g' r -> matches ua (A k Star :: p) (pre ++ u) g g' r.
Proof.
  intros Hpre Hm. induction Hpre; simpl.
  - now apply M_star_stop.
  - now apply M_star_more.
Qed.

Lemma matches_star_inv (k : cclass) (p : regex) (s : text)
      (g g' : caps) (r : text) :
  matches ua (A k Star :: p) s g g' r ->
  exists pre u, s = pre ++ u /\ Forall (fun c => cc ua k c = true) pre
                /\ matches ua p u g g' r.
Proof.
  intros H. remember (A k Star :: p) as q eqn:Eq.
  induction H; try discriminate; injection Eq as -> ->.
  - exists [], s. auto.
  - destruct (IHmatches eq_refl) as (pre & u & -> & Hpre & Hu).
    exists (c :: pre), u. auto.
Qed.

(** The matcher only returns matches. *)
Theorem match_at_sound (p : regex) (s : text) (g g' : caps) (r : text) :
  match_at ua p s g = Some (g', r) -> matches ua p s g g' r.
Proof.
  revert s g. induction p as [|a p IH]; intros s g; simpl.
  - intros [= <- <-]. constructor.
  - destruct a as [k [| | |]| |].
    + destruct s as [|c s]; [discriminate|].
      destruct (cc ua k c) eqn:Ec; [|discriminate].
      intros H. apply M_one; auto.
    + destruct s as [|c s].
      * intros H. apply M_opt_skip; auto.
      * destruct (cc ua k c) eqn:Ec.
        -- destruct (match_at ua p s g) as [r0|] eqn:Em.
           ++ intros [= ->]. apply M_opt_take; auto.
           ++ intros H. apply M_opt_skip; auto.
        -- intros H. apply M_opt_skip; auto.
    + intros H. apply star_inv in H as (pre & u & -> & Hpre & Hu).
      apply matches_star_run; auto.
    + destruct s as [|c s]; [discriminate|].
      destruct (cc ua k c) eqn:Ec; [|discriminate].
      intros H. apply star_inv in H as (pre & u & -> & Hpre & Hu).
      apply M_plus; [assumption|]. apply matches_star_run; auto.
    + intros H. apply M_open; auto.
    + intros H. apply M_close; auto.
Qed.

(** Where the pattern can match, the matcher finds a match. *)
Theorem match_at_complete (p : regex) (s : text) (g g' : caps) (r : text) :
  matches ua p s g g' r -> match_at ua p s g <> None.
Proof.
  induction 1; simpl; try assumption; try discriminate.
  - rewrite H. assumption.
  - destruct s as [|c s]; [assumption|].
    destruct (cc ua k c); [|assumption].
    destruct (match_at ua p s g); [discriminate|assumption].
  - rewrite H. destruct (match_at ua p s g); [discriminate|].
    now elim IHmatches.
  - apply (star_some k _ [] s); [constructor|assumption].
  - simpl in IHmatches. rewrite H.
    destruct (star ua k (fun t => match_at ua p t g) s); [discriminate|].
    now elim IHmatches.
  - rewrite H. assumption.
Qed.

(** A match consumes a prefix of the text, of at least [min_len] characters. *)
Lemma matches_prefix (p : regex) (s : text) (g g' : caps) (r : text) :
  matches ua p s g g' r ->
  exists pre, s = pre ++ r /\ (min_len p <= length pre)%nat.
Proof.
  induction 1; simpl;
    try (destruct IHmatches as (pre & -> & Hlen)).
  - exists []. auto.
  - exists pre. auto.
  - exists pre. auto.
  - exists (c :: pre). simpl. split; [reflexivity|lia].
  - exists pre. auto.
  - exists (c :: pre). simpl. split; [reflexivity|lia].
  - exists pre. auto.
  - exists (c :: pre). simpl in *. split; [reflexivity|lia].
  - exists (c :: pre). simpl in *. split; [reflexivity|lia].
Qed.

Lemma match_at_length (p : regex) (s : text) (g g' : caps) (r : text) :
  match_at ua p s g = Some (g', r) ->
  (length r + min_len p <= length s)%nat.
Proof.
  intros H. apply match_at_sound, matches_prefix in H as (pre & -> & Hlen).
  rewrite length_app. lia.
Qed.

End MatcherFacts.

(** ** One file *)

Lemma text_eqb_eq (a b : text) : text_eqb a b = true <-> a = b.
Proof.
  unfold text_eqb. destruct (list_eq_dec N.eq_dec a b); split;
    congruence.
Qed.

Lemma text_eqb_refl (a : text) : text_eqb a a = true.
Proof. now apply text_eqb_eq. Qed.

Lemma text_eqb_neq (a b : text) : text_eqb a b = false <-> a <> b.
Proof.
  unfold text_eqb. destruct (list_eq_dec N.eq_dec a b); split;
    congruence.
Qed.

(** ** The running example (claim C1) *)



(** ** Files without any pattern (claim C2) *)

Lemma no_auth_pattern_steps (ua : char -> bool) (s : text) :
  no_auth_pattern ua s = true ->
  remove_guards ua (remove_imports ua s) = s.
Proof.
  unfold no_auth_pattern, auth_imports, auth_check_patterns.
  cbn [forallb app]. rewrite !andb_true_iff, !negb_true_iff.
  intros (H1 & H2 & H3 & H4 & H5 & H6 & _).
  unfold remove_guards, remove_imports, auth_imports, auth_check_patterns.
  cbn [fold_left].
  repeat (rewrite (sub_no_match ua _ _ s) by assumption). reflexivity.
Qed.

(** C2, as the specification states it, fails: in the text made of [a],
    three newlines and [b] no import pattern and no guard pattern appears,
    and the script changes it all the same. *)
Lemma C2_blank_lines_change_a_file_without_patterns :
  no_auth_pattern no_unicode_alnum three_newlines = true /\
  transform no_unicode_alnum three_newlines <> three_newlines.
Proof. split; [vm_compute; reflexivity|]. vm_compute. discriminate. Qed.

(** ** The blank-line pattern *)

Section BlankLines.

Variable ua : char -> bool.

Lemma cc_lit (d c : char) : cc ua (Lit d) c = true <-> c = d.
Proof. simpl. apply N.eqb_eq. Qed.

Lemma nl_run_spaces (w x : text) :
  spaces w -> (nl_run x <= nl_run (w ++ x))%nat.
Proof.
  induction 1 as [|c w Hc _ IH]; simpl; [lia|]. rewrite Hc. lia.
Qed.

Lemma nl_run_NL (s : text) : nl_run (NL :: s) = S (nl_run s).
Proof. reflexivity. Qed.

(** What the blank-line pattern can match: three newlines with white space
    between them. *)
Lemma matches_blank_lines (s : text) (g g' : caps) (r : text) :
  matches ua blank_lines s g g' r ->
  exists w1 w2, s = NL :: w1 ++ NL :: w2 ++ NL :: r /\ spaces w1 /\ spaces w2.
Proof.
  unfold blank_lines, ws. cbn [app]. intros H.
  inversion H as [| | |k p c s1 g1 g1' r1 Hc H1| | | | |]; subst; clear H.
  apply cc_lit in Hc as ->.
  apply matches_star_inv in H1 as (w1 & u1 & -> & Hw1 & H2).
  inversion H2 as [| | |k p c s2 g2 g2' r2 Hc H3| | | | |]; subst; clear H2.
  apply cc_lit in Hc as ->.
  apply matches_star_inv in H3 as (w2 & u2 & -> & Hw2 & H4).
  inversion H4 as [| | |k p c s3 g3 g3' r3 Hc H5| | | | |]; subst; clear H4.
  apply cc_lit in Hc as ->.
  inversion H5; subst.
  exists w1, w2. auto.
Qed.

Lemma blank_lines_matches (w1 w2 r : text) (g : caps) :
  spaces w1 -> spaces w2 ->
  matches ua blank_lines (NL :: w1 ++ NL :: w2 ++ NL :: r) g g r.
Proof.
  intros H1 H2. unfold blank_lines, ws. cbn [app].
  apply M_one; [reflexivity|]. apply matches_star_run; [exact H1|].
  apply M_one; [reflexivity|]. apply matches_star_run; [exact H2|].
  apply M_one; [reflexivity|]. constructor.
Qed.

(** The first newline of the white space a text starts with. *)
Lemma nl_run_split (t : text) :
  (1 <= nl_run t)%nat ->
  exists w r, t = w ++ NL :: r /\ spaces w /\ nl_run t = S (nl_run r).
Proof.
  induction t as [|c t IH]; simpl; [lia|].
  destruct (is_space c) eqn:Ec; [|lia].
  destruct (N.eqb_spec c NL) as [->|Hne].
  - intros _. exists [], t. repeat split. constructor.
  - simpl. intros H. destruct (IH H) as (w & r & -> & Hw & E).
    exists (c :: w), r. repeat split; [|exact E]. now constructor.
Qed.

(** The pattern matches at a newline exactly when the white space from
    there on holds three newlines or more. *)
Lemma blank_lines_match_iff (s : text) :
  match_at ua blank_lines s (None, None) <> None <->
  (exists t, s = NL :: t) /\ (3 <= nl_run s)%nat.
Proof.
  split.
  - destruct (match_at ua blank_lines s (None, None)) as [[g r]|] eqn:E;
      [intros _|congruence].
    apply match_at_sound, matches_blank_lines in E
      as (w1 & w2 & -> & H1 & H2).
    split; [eauto|]. rewrite nl_run_NL.
    pose proof (nl_run_spaces w1 (NL :: w2 ++ NL :: r) H1) as L1.
    pose proof (nl_run_spaces w2 (NL :: r) H2) as L2.
    rewrite nl_run_NL in L1, L2. lia.
  - intros [[t ->] H]. rewrite nl_run_NL in H.
    destruct (nl_run_split t) as (w1 & t1 & -> & H1 & E1); [lia|].
    destruct (nl_run_split t1) as (w2 & t2 & -> & H2 & E2); [lia|].
    eapply match_at_complete. apply blank_lines_matches; assumption.
Qed.

End BlankLines.

(** ** Greedy repetition *)

Section Greedy.

Variable ua : char -> bool.

(** When the repetition fails, the rest of the pattern fails after every
    number of repetitions. *)
Lemma star_none (k : cclass) (K : text -> option (caps * text))
      (pre u : text) :
  Forall (fun c => cc ua k c = true) pre ->
  star ua k K (pre ++ u) = None -> K u = None.
Proof.
  intros Hpre H. destruct (K u) eqn:E; [|reflexivity].
  exfalso. eapply star_some; [exact Hpre| |exact H]. congruence.
Qed.

(** The repetition takes the longest run after which the rest of the
    pattern succeeds. *)
Lemma star_greedy (k : cclass) (K : text -> option (caps * text)) (s : text)
      (res : caps * text) :
  star ua k K s = Some res ->
  exists pre u,
    s = pre ++ u /\ Forall (fun c => cc ua k c = true) pre /\ K u = Some res
    /\ forall c u', u = c :: u' -> cc ua k c = true -> star ua k K u' = None.
Proof.
  revert res. induction s as [|c s IH]; intros res; simpl.
  - intros H. exists [], []. repeat split; auto. discriminate.
  - destruct (cc ua k c) eqn:Ec.
    + destruct (star ua k K s) as [r0|] eqn:Es.
      * intros [= <-].
        destruct (IH r0 eq_refl) as (pre & u & -> & Hpre & Hu & Hmax).
        exists (c :: pre), u. auto.
      * intros H. exists [], (c :: s). repeat split; auto.
        intros c' u' [= <- <-] _. exact Es.
    + intros H. exists [], (c :: s). repeat split; auto.
      intros c' u' [= <- <-] Hc. congruence.
Qed.

(** After a match of the blank-line pattern, the white space that follows
    holds no newline: the match ends at the last newline of the run. *)
Lemma blank_lines_result (s : text) (g : caps) (r : text) :
  match_at ua blank_lines s (None, None) = Some (g, r) ->
  nl_run r = 0%nat /\
  exists m, s = m ++ NL :: r /\ spaces m /\ (length r < length s)%nat.
Proof.
  intros H. split.
  - unfold blank_lines, ws in H. cbn [app match_at] in H.
    destruct s as [|c s]; [discriminate|].
    destruct (cc ua (Lit NL) c); [|discriminate].
    apply star_inv in H as (w1 & u1 & _ & _ & H).
    destruct u1 as [|c1 u1]; [discriminate|].
    destruct (cc ua (Lit NL) c1); [|discriminate].
    apply star_greedy in H as (w2 & u2 & _ & _ & H & Hmax).
    destruct u2 as [|c2 u2]; [discriminate|].
    destruct (cc ua (Lit NL) c2) eqn:E2; [|discriminate].
    injection H as _ <-. apply cc_lit in E2 as ->.
    specialize (Hmax NL u2 eq_refl eq_refl).
    destruct (nl_run u2) eqn:En; [reflexivity|exfalso].
    destruct (nl_run_split u2) as (w & r' & -> & Hw & _); [lia|].
    apply star_none in Hmax; [|exact Hw]. discriminate.
  - apply match_at_sound, matches_blank_lines in H
      as (w1 & w2 & -> & H1 & H2).
    exists (NL :: w1 ++ NL :: w2). split; [|split].
    + simpl. rewrite <- app_assoc. reflexivity.
    + constructor; [reflexivity|]. apply Forall_app. split; [exact H1|].
      constructor; [reflexivity|exact H2].
    + simpl. rewrite !length_app. simpl. rewrite length_app. simpl. lia.
Qed.

End Greedy.

(** ** Collapsing blank lines *)

Section Collapse.

Variable ua : char -> bool.

Lemma collapse_replace (s r : text) (g : caps) :
  match_at ua blank_lines s (None, None) = Some (g, r) ->
  collapse_blank_lines ua s = NL :: NL :: collapse_blank_lines ua r.
Proof.
  intros H. unfold collapse_blank_lines.
  destruct (blank_lines_result ua s g r H) as (_ & m & _ & _ & Hlen).
  now rewrite (sub_replace ua _ _ s r g H Hlen).
Qed.

Lemma collapse_skip (c : char) (s : text) :
  match_at ua blank_lines (c :: s) (None, None) = None ->
  collapse_blank_lines ua (c :: s) = c :: collapse_blank_lines ua s.
Proof. apply sub_skip. Qed.

Lemma collapse_nil : collapse_blank_lines ua [] = [].
Proof. reflexivity. Qed.

(** A character that is not a newline is copied. *)
Lemma blank_lines_needs_NL (c : char) (s : text) :
  c <> NL -> match_at ua blank_lines (c :: s) (None, None) = None.
Proof.
  intros Hc. destruct (match_at ua blank_lines (c :: s) (None, None)) eqn:E;
    [|reflexivity].
  assert (N : match_at ua blank_lines (c :: s) (None, None) <> None)
    by congruence.
  apply blank_lines_match_iff in N as [[t [= -> _]] _]. congruence.
Qed.

Lemma blank_lines_short_run (s : text) :
  (nl_run s <= 2)%nat -> match_at ua blank_lines s (None, None) = None.
Proof.
  intros Hc. destruct (match_at ua blank_lines s (None, None)) eqn:E;
    [|reflexivity].
  assert (N : match_at ua blank_lines s (None, None) <> None) by congruence.
  apply blank_lines_match_iff in N as [_ N]. lia.
Qed.

(** The result holds no white space with more than two newlines. *)
Lemma collapse_tidy_aux (n : nat) (s : text) :
  (length s <= n)%nat ->
  (nl_run (collapse_blank_lines ua s) <= nl_run s)%nat
  /\ tidy (collapse_blank_lines ua s) = true.
Proof.
  revert s. induction n as [|n IH]; intros s Hn.
  - destruct s; [|simpl in Hn; lia]. split; reflexivity.
  - destruct (match_at ua blank_lines s (None, None)) as [[g r]|] eqn:E.
    + rewrite (collapse_replace s r g E).
      destruct (blank_lines_result ua s g r E) as (Hr & m & _ & _ & Hlen).
      destruct (IH r) as [L T]; [lia|].
      assert (N : match_at ua blank_lines s (None, None) <> None)
        by congruence.
      apply blank_lines_match_iff in N as [_ N].
      assert (Z : nl_run (collapse_blank_lines ua r) = 0%nat) by lia.
      split.
      * rewrite !nl_run_NL. lia.
      * cbn [tidy]. rewrite !nl_run_NL, Z, T. reflexivity.
    + destruct s as [|c s]; [split; reflexivity|].
      rewrite (collapse_skip c s E).
      destruct (IH s) as [L T]; [simpl in Hn; lia|].
      assert (L' : (nl_run (c :: collapse_blank_lines ua s)
                    <= nl_run (c :: s))%nat).
      { simpl. destruct (is_space c); lia. }
      split; [exact L'|].
      cbn [tidy]. rewrite T, andb_true_r. apply Nat.leb_le.
      destruct (N.eq_dec c NL) as [->|Hc].
      * destruct (Nat.le_gt_cases (nl_run (NL :: s)) 2) as [H2|H3]; [lia|].
        exfalso.
        assert (N : match_at ua blank_lines (NL :: s) (None, None) <> None).
        { apply blank_lines_match_iff. split; [eauto|lia]. }
        congruence.
      * destruct (IH s) as [_ T']; [simpl in Hn; lia|].
        destruct (collapse_blank_lines ua s) as [|d x] eqn:Ex.
        -- simpl. destruct (is_space c); [|lia].
           destruct (N.eqb_spec c NL); [contradiction|simpl; lia].
        -- cbn [tidy] in T'. apply andb_true_iff in T' as [T' _].
           apply Nat.leb_le in T'. revert T'. simpl.
           destruct (is_space c); [|lia].
           destruct (N.eqb_spec c NL); [contradiction|simpl; lia].
Qed.

Lemma collapse_tidy (s : text) : tidy (collapse_blank_lines ua s) = true.
Proof. apply (collapse_tidy_aux (length s) s). lia. Qed.

(** In a tidy text the pattern appears nowhere. *)
Lemma tidy_no_match (s : text) :
  tidy s = true -> search ua blank_lines s = false.
Proof.
  induction s as [|c s IH]; cbn [tidy search]; rewrite andb_true_iff;
    intros [H T]; apply Nat.leb_le in H;
    rewrite (blank_lines_short_run _ H); auto.
Qed.

Lemma collapse_no_match (s : text) :
  search ua blank_lines (collapse_blank_lines ua s) = false.
Proof. apply tidy_no_match, collapse_tidy. Qed.


End Collapse.

(** ** White-space runs are collapsed one by one *)

Section Runs.

Variable ua : char -> bool.

Lemma nl_run_cons (c : char) (s : text) :
  nl_run (c :: s)
  = if is_space c
    then Nat.add (if c =? NL then 1%nat else 0%nat) (nl_run s)
    else 0%nat.
Proof. reflexivity. Qed.

Lemma nl_run_app_hard (a x : text) :
  a <> [] -> hard_end a = true -> nl_run (a ++ x) = nl_run a.
Proof.
  induction a as [|c a IH]; [congruence|]. intros _ H.
  destruct a as [|c' a].
  - simpl in *. apply negb_true_iff in H. now rewrite H.
  - change (hard_end (c' :: a) = true) in H.
    rewrite <- app_comm_cons, !nl_run_cons.
    rewrite IH; [reflexivity|discriminate|exact H].
Qed.

Lemma hard_end_split (m r : text) :
  hard_end (m ++ NL :: r) = true -> r <> [] /\ hard_end r = true.
Proof.
  induction m as [|d m IH].
  - destruct r as [|c r]; [discriminate|]. intros H. split; [discriminate|].
    exact H.
  - intros H. apply IH. destruct m; exact H.
Qed.

Lemma hard_end_tail (c : char) (a : text) :
  hard_end (c :: a) = true -> hard_end a = true.
Proof. destruct a; [reflexivity|auto]. Qed.

Lemma nl_run_no_nl (l y : text) :
  spaces l -> no_nl l -> nl_run (l ++ y) = nl_run y.
Proof.
  induction 1 as [|c l Hc _ IH]; [reflexivity|].
  intros N. inversion N; subst. simpl. rewrite Hc.
  destruct (N.eqb_spec c NL); [contradiction|]. simpl. auto.
Qed.

Lemma nl_run_hard_start (b : text) : hard_start b = true -> nl_run b = 0%nat.
Proof.
  destruct b as [|c b]; [reflexivity|]. simpl. intros H.
  apply negb_true_iff in H. now rewrite H.
Qed.

Lemma nl_run_In (m y : text) :
  spaces m -> In NL m -> (S (nl_run y) <= nl_run (m ++ y))%nat.
Proof.
  induction 1 as [|c m Hc Hm IH]; [intros []|].
  intros [->|Hin].
  - change (nl_run ((NL :: m) ++ y)) with (S (nl_run (m ++ y))).
    pose proof (nl_run_spaces m y Hm). lia.
  - simpl. rewrite Hc. specialize (IH Hin). lia.
Qed.

(** The last newline of a white-space run is where it is. *)
Lemma last_newline_unique (m m' r r' : text) :
  m ++ NL :: r = m' ++ NL :: r' -> spaces m -> spaces m' ->
  nl_run r = 0%nat -> nl_run r' = 0%nat -> r = r'.
Proof.
  revert m'. induction m as [|c m IH]; intros [|c' m'] E Hm Hm' Hr Hr'.
  - now injection E.
  - injection E as _ ->. inversion Hm'; subst.
    pose proof (nl_run_spaces m' (NL :: r') ltac:(assumption)) as L.
    rewrite nl_run_NL in L. lia.
  - injection E as _ <-. inversion Hm; subst.
    pose proof (nl_run_spaces m (NL :: r) ltac:(assumption)) as L.
    rewrite nl_run_NL in L. lia.
  - injection E as _ E. inversion Hm; inversion Hm'; subst. eauto.
Qed.

(** A match with three newlines or more from a newline on ends at the last
    newline of the run. *)
Lemma collapse_at_newline (m y : text) :
  spaces m -> (3 <= nl_run (m ++ NL :: y))%nat -> nl_run y = 0%nat ->
  (exists t, m = NL :: t) ->
  collapse_blank_lines ua (m ++ NL :: y)
  = NL :: NL :: collapse_blank_lines ua y.
Proof.
  intros Hm H3 Hy [t ->].
  destruct (match_at ua blank_lines ((NL :: t) ++ NL :: y) (None, None))
    as [[g r]|] eqn:E.
  - rewrite (collapse_replace ua _ r g E).
    destruct (blank_lines_result ua _ g r E) as (Hr & m' & E' & Hm' & _).
    now rewrite (last_newline_unique m' (NL :: t) r y).
  - exfalso. revert E. apply blank_lines_match_iff. split; [|exact H3].
    simpl. eauto.
Qed.

Lemma collapse_no_nl (l y : text) :
  no_nl l ->
  collapse_blank_lines ua (l ++ y) = l ++ collapse_blank_lines ua y.
Proof.
  induction 1 as [|c l Hc _ IH]; [reflexivity|]. simpl.
  rewrite collapse_skip by now apply blank_lines_needs_NL.
  now rewrite IH.
Qed.

(** Text that ends with a character other than white space is collapsed on
    its own. *)
Lemma collapse_app_hard_aux (n : nat) (a x : text) :
  (length a <= n)%nat -> hard_end a = true ->
  collapse_blank_lines ua (a ++ x)
  = collapse_blank_lines ua a ++ collapse_blank_lines ua x.
Proof.
  revert a. induction n as [|n IH]; intros a Hn Ha.
  - destruct a; [reflexivity|simpl in Hn; lia].
  - destruct a as [|c a]; [reflexivity|].
    assert (Hrun : nl_run ((c :: a) ++ x) = nl_run (c :: a))
      by (apply nl_run_app_hard; [discriminate|exact Ha]).
    destruct (match_at ua blank_lines (c :: a) (None, None))
      as [[g r]|] eqn:E.
    + rewrite (collapse_replace ua _ r g E).
      destruct (blank_lines_result ua _ g r E) as (Hr & m & E' & Hm & Hlen).
      assert (N : match_at ua blank_lines (c :: a) (None, None) <> None)
        by congruence.
      apply blank_lines_match_iff in N as [[t [= -> <-]] N].
      rewrite E' in Ha. apply hard_end_split in Ha as [Hne Hr'].
      rewrite E', <- app_assoc. cbn [app].
      assert (Hm1 : exists t, m = NL :: t).
      { destruct m as [|d m].
        - injection E' as ->. rewrite nl_run_NL in N. lia.
        - injection E' as <- _. eauto. }
      rewrite E' in Hrun, N. rewrite <- app_assoc in Hrun. cbn [app] in Hrun.
      rewrite (collapse_at_newline m (r ++ x)); trivial.
      * cbn [app]. do 2 f_equal. apply IH; [|exact Hr'].
        simpl in Hn, Hlen. lia.
      * rewrite Hrun. exact N.
      * now rewrite nl_run_app_hard.
    + assert (E2 : match_at ua blank_lines ((c :: a) ++ x) (None, None) = None).
      { destruct (match_at ua blank_lines ((c :: a) ++ x) (None, None)) eqn:E2;
          [|reflexivity].
        exfalso. revert E. apply blank_lines_match_iff.
        assert (N : match_at ua blank_lines ((c :: a) ++ x) (None, None)
                    <> None) by congruence.
        apply blank_lines_match_iff in N as [[t [= -> _]] N].
        split; [eauto|]. now rewrite <- Hrun. }
      cbn [app] in *. rewrite !collapse_skip by assumption. cbn [app].
      f_equal. apply IH; [simpl in Hn; lia|].
      now apply hard_end_tail in Ha.
Qed.

Lemma collapse_app_hard (a x : text) :
  hard_end a = true ->
  collapse_blank_lines ua (a ++ x)
  = collapse_blank_lines ua a ++ collapse_blank_lines ua x.
Proof. apply (collapse_app_hard_aux (length a)). lia. Qed.

End Runs.

(** ** Blank lines (claim C4) *)

Lemma collapse_long_run (ua : char -> bool) (a l m t b : text) :
  hard_end a = true -> spaces l -> no_nl l -> spaces m -> In NL m ->
  spaces t -> no_nl t -> hard_start b = true ->
  collapse_blank_lines ua (a ++ l ++ NL :: m ++ NL :: t ++ b)
  = collapse_blank_lines ua a ++ l ++ NL :: NL :: t
    ++ collapse_blank_lines ua b.
Proof.
  intros Ha Hl Nl Hm Im Ht Nt Hb.
  assert (Z : nl_run (t ++ b) = 0%nat)
    by (rewrite nl_run_no_nl by assumption; now apply nl_run_hard_start).
  rewrite collapse_app_hard, collapse_no_nl by assumption.
  change (NL :: m ++ NL :: t ++ b) with ((NL :: m) ++ NL :: t ++ b).
  rewrite collapse_at_newline, collapse_no_nl; eauto.
  - constructor; [reflexivity|exact Hm].
  - cbn [app]. rewrite nl_run_NL.
    pose proof (nl_run_In m (NL :: t ++ b) Hm Im) as L.
    rewrite nl_run_NL in L. lia.
Qed.

Lemma collapse_single_blank_line (ua : char -> bool) (a l m t b : text) :
  hard_end a = true -> spaces l -> no_nl l -> spaces m -> no_nl m ->
  spaces t -> no_nl t -> hard_start b = true ->
  collapse_blank_lines ua (a ++ l ++ NL :: m ++ NL :: t ++ b)
  = collapse_blank_lines ua a ++ l ++ NL :: m ++ NL :: t
    ++ collapse_blank_lines ua b.
Proof.
  intros Ha Hl Nl Hm Nm Ht Nt Hb.
  assert (Z : nl_run (t ++ b) = 0%nat)
    by (rewrite nl_run_no_nl by assumption; now apply nl_run_hard_start).
  rewrite collapse_app_hard, collapse_no_nl by assumption.
  rewrite collapse_skip.
  - rewrite collapse_no_nl by assumption. rewrite collapse_skip.
    + now rewrite collapse_no_nl.
    + apply blank_lines_short_run. rewrite nl_run_NL, Z. lia.
  - apply blank_lines_short_run.
    rewrite nl_run_NL, nl_run_no_nl, nl_run_NL, Z by assumption. lia.
Qed.

(** C4, as the specification states it, fails: the three blank lines of this
    input stand behind an import statement, and the output holds no blank
    line at all instead of exactly one: the import pattern deleted them
    with the statement before the blank-line step ran. *)
Lemma C4_blank_lines_behind_an_import_are_deleted :
  transform no_unicode_alnum import_then_blank_lines = const_x
  /\ const_x <> [NL; NL] ++ const_x.
Proof. split; [vm_compute; reflexivity|]. vm_compute. discriminate. Qed.

(** C4, amended: whatever the import and guard steps did, the result of the
    script holds no three newlines separated by white space only.  The
    blank-line step treats each run of white space of the content it
    receives on its own: a run with three newlines or more (a newline,
    white space holding a newline, a newline) becomes exactly two newlines,
    that is one blank line, with the white space before its first and after
    its last newline kept; a run with two newlines, a single blank line, is
    left as it is.  (Blank lines directly behind a removed import statement
    do not reach this step.) *)
Theorem C4_blank_lines_collapsed (ua : char -> bool) :
  (forall s, search ua blank_lines (transform ua s) = false)
  /\ (forall a l m t b,
         hard_end a = true -> spaces l -> no_nl l -> spaces m -> In NL m ->
         spaces t -> no_nl t -> hard_start b = true ->
         collapse_blank_lines ua (a ++ l ++ NL :: m ++ NL :: t ++ b)
         = collapse_blank_lines ua a ++ l ++ NL :: NL :: t
           ++ collapse_blank_lines ua b)
  /\ (forall a l m t b,
         hard_end a = true -> spaces l -> no_nl l -> spaces m -> no_nl m ->
         spaces t -> no_nl t -> hard_start b = true ->
         collapse_blank_lines ua (a ++ l ++ NL :: m ++ NL :: t ++ b)
         = collapse_blank_lines ua a ++ l ++ NL :: m ++ NL :: t
           ++ collapse_blank_lines ua b).
Proof.
  split; [|split].
  - intros s. apply collapse_no_match.
  - apply collapse_long_run.
  - apply collapse_single_blank_line.
Qed.

Lemma C4_blank_lines_collapsed_witness :
  collapse_blank_lines no_unicode_alnum
    (str "a;" ++ str " " ++ NL :: [32; NL; 9] ++ NL :: str "  " ++ str "b")
  = collapse_blank_lines no_unicode_alnum (str "a;") ++ str " "
    ++ NL :: NL :: str "  " ++ collapse_blank_lines no_unicode_alnum (str "b").
Proof.
  apply (proj1 (proj2 (C4_blank_lines_collapsed no_unicode_alnum))
           (str "a;") (str " ") [32; NL; 9] (str "  ") (str "b")).
  - reflexivity.
  - repeat constructor.
  - repeat constructor; discriminate.
  - repeat constructor.
  - simpl. tauto.
  - repeat constructor.
  - repeat constructor; discriminate.
  - reflexivity.
Defined.

(** ** Running the front of a pattern *)

Section Continuations.

Variable ua : char -> bool.

Lemma star_ext (k : cclass) (K1 K2 : text -> option (caps * text)) (s : text) :
  (forall t, K1 t = K2 t) -> star ua k K1 s = star ua k K2 s.
Proof.
  intros E. induction s as [|c s IH]; simpl; [apply E|].
  now rewrite IH, E.
Qed.

Lemma match_k_app (q p : regex) (s : text) (g : caps) :
  match_at ua (q ++ p) s g
  = match_k ua q (fun t g' => match_at ua p t g') s g.
Proof.
  revert s g. induction q as [|a q IH]; intros s g; [reflexivity|].
  destruct a as [k [| | |]| |]; cbn [app match_at match_k].
  - destruct s as [|c s]; [reflexivity|]. now rewrite IH.
  - destruct s as [|c s]; [apply IH|]. now rewrite !IH.
  - apply star_ext. intros t. apply IH.
  - destruct s as [|c s]; [reflexivity|].
    destruct (cc ua k c); [|reflexivity]. apply star_ext. intros t. apply IH.
  - apply IH.
  - apply IH.
Qed.

Lemma drop_space_hard (s : text) : hard_start (drop_space s) = true.
Proof.
  induction s as [|c s IH]; [reflexivity|]. simpl.
  destruct (is_space c) eqn:E; [exact IH|]. simpl. now rewrite E.
Qed.

Lemma drop_space_length (s : text) : (length (drop_space s) <= length s)%nat.
Proof.
  induction s as [|c s IH]; simpl; [lia|].
  destruct (is_space c); simpl; lia.
Qed.

Lemma drop_space_id (s : text) : hard_start s = true -> drop_space s = s.
Proof.
  destruct s as [|c s]; [reflexivity|]. simpl. intros H.
  apply negb_true_iff in H. now rewrite H.
Qed.

(** The end of every import pattern, white space and an optional newline:
    the white space is taken whole, newlines included, and the optional
    newline then finds nothing. *)
Lemma import_tail (s : text) (g : caps) :
  match_at ua (ws ++ [A (Lit NL) Opt]) s g = Some (g, drop_space s).
Proof.
  change (star ua Space (fun t => match_at ua [A (Lit NL) Opt] t g) s
          = Some (g, drop_space s)).
  set (K := fun t => match_at ua [A (Lit NL) Opt] t g).
  assert (H : forall t, hard_start t = true -> K t = Some (g, t)).
  { unfold K. intros [|c t]; [reflexivity|]. simpl. intros H.
    destruct (N.eqb_spec c NL) as [->|_]; [discriminate|reflexivity]. }
  clearbody K. induction s as [|c s IH]; [now apply H|].
  cbn [star drop_space cc]. destruct (is_space c) eqn:E.
  - now rewrite IH.
  - apply H. simpl. now rewrite E.
Qed.

End Continuations.

(** ** Import statements *)

Section Imports.

Variable ua : char -> bool.

Lemma import_pattern_split (names : regex) :
  import_pattern names = import_front names ++ (ws ++ [A (Lit NL) Opt]).
Proof.
  unfold import_pattern, import_front. now rewrite <- !app_assoc.
Qed.

Ltac run_front :=
  intros K rest g; vm_compute;
  match goal with
  | |- context [K rest ?g0] => destruct (K rest g0); reflexivity
  end.

Lemma front_auth K rest g :
  match_k ua (import_front names_auth) K (import_auth ++ rest) g = K rest g.
Proof. revert K rest g. run_front. Qed.

Lemma front_admin K rest g :
  match_k ua (import_front names_admin) K (import_admin ++ rest) g = K rest g.
Proof. revert K rest g. run_front. Qed.

Lemma front_auth_admin K rest g :
  match_k ua (import_front names_auth_admin) K (import_auth_admin ++ rest) g
  = K rest g.
Proof. revert K rest g. run_front. Qed.

Lemma front_admin_auth K rest g :
  match_k ua (import_front names_admin_auth) K (import_admin_auth ++ rest) g
  = K rest g.
Proof. revert K rest g. run_front. Qed.

End Imports.

(** ** Matches of a pattern made of two parts *)

Section Sequences.

Variable ua : char -> bool.

Lemma matches_app (p1 p2 : regex) (s : text) (g g' : caps) (r : text) :
  matches ua (p1 ++ p2) s g g' r ->
  exists g1 u, matches ua p1 s g g1 u /\ matches ua p2 u g1 g' r.
Proof.
  intros H. remember (p1 ++ p2) as q eqn:Eq. revert p1 Eq.
  induction H; intros p1 Eq.
  - destruct p1; [|discriminate]. simpl in Eq. subst.
    exists g, s. split; constructor.
  - destruct p1 as [|a p1]; simpl in Eq.
    + subst. exists g, s. split; [constructor|now apply M_open].
    + injection Eq as <- ->.
      destruct (IHmatches p1 eq_refl) as (g1 & u & H1 & H2).
      exists g1, u. split; [now apply M_open|exact H2].
  - destruct p1 as [|a p1]; simpl in Eq.
    + subst. exists g, s. split; [constructor|now apply M_close].
    + injection Eq as <- ->.
      destruct (IHmatches p1 eq_refl) as (g1 & u & H1 & H2).
      exists g1, u. split; [now apply M_close|exact H2].
  - destruct p1 as [|a p1]; simpl in Eq.
    + subst. exists g, (c :: s). split; [constructor|now apply M_one].
    + injection Eq as <- ->.
      destruct (IHmatches p1 eq_refl) as (g1 & u & H1 & H2).
      exists g1, u. split; [now apply M_one|exact H2].
  - destruct p1 as [|a p1]; simpl in Eq.
    + subst. exists g, s. split; [constructor|now apply M_opt_skip].
    + injection Eq as <- ->.
      destruct (IHmatches p1 eq_refl) as (g1 & u & H1 & H2).
      exists g1, u. split; [now apply M_opt_skip|exact H2].
  - destruct p1 as [|a p1]; simpl in Eq.
    + subst. exists g, (c :: s). split; [constructor|now apply M_opt_take].
    + injection Eq as <- ->.
      destruct (IHmatches p1 eq_refl) as (g1 & u & H1 & H2).
      exists g1, u. split; [now apply M_opt_take|exact H2].
  - destruct p1 as [|a p1]; simpl in Eq.
    + subst. exists g, s. split; [constructor|now apply M_star_stop].
    + injection Eq as <- ->.
      destruct (IHmatches p1 eq_refl) as (g1 & u & H1 & H2).
      exists g1, u. split; [now apply M_star_stop|exact H2].
  - destruct p1 as [|a p1]; simpl in Eq.
    + subst. exists g, (c :: s). split; [constructor|now apply M_star_more].
    + injection Eq as <- ->.
      destruct (IHmatches (A k Star :: p1) eq_refl) as (g1 & u & H1 & H2).
      exists g1, u. split; [now apply M_star_more|exact H2].
  - destruct p1 as [|a p1]; simpl in Eq.
    + subst. exists g, (c :: s). split; [constructor|now apply M_plus].
    + injection Eq as <- ->.
      destruct (IHmatches (A k Star :: p1) eq_refl) as (g1 & u & H1 & H2).
      exists g1, u. split; [now apply M_plus|exact H2].
Qed.

Lemma matches_no_group (p : regex) (s : text) (g g' : caps) (r : text) :
  no_group p -> matches ua p s g g' r -> g' = g.
Proof.
  intros Hp H. induction H; inversion Hp; subst; auto; try contradiction.
  apply IHmatches. now constructor.
Qed.

Lemma no_group_app (p q : regex) : no_group p -> no_group q -> no_group (p ++ q).
Proof. intros. apply Forall_app. auto. Qed.

Lemma no_group_lit (s : string) : no_group (lit s).
Proof.
  unfold lit. induction (str s); simpl; constructor; [exact I|assumption].
Qed.

End Sequences.

(** ** The shape of a guard match *)

Section GuardShape.

Variable ua : char -> bool.

Lemma matches_lit (x : string) (p : regex) (t : text) (g g' : caps) (r : text) :
  matches ua (lit x ++ p) t g g' r ->
  exists u, t = str x ++ u /\ matches ua p u g g' r.
Proof.
  unfold lit. revert t. induction (str x) as [|c l IH]; intros t H.
  - exists t. auto.
  - simpl in H. inversion H; subst.
    match goal with Hc : cc ua (Lit c) _ = true |- _ =>
      apply N.eqb_eq in Hc; subst end.
    match goal with Hm : matches ua _ _ g g' r |- _ =>
      destruct (IH _ Hm) as (u & -> & Hu) end.
    exists u. auto.
Qed.

Lemma matches_ws (p : regex) (t : text) (g g' : caps) (r : text) :
  matches ua (ws ++ p) t g g' r ->
  exists w u, t = w ++ u /\ spaces w /\ matches ua p u g g' r.
Proof. intros H. apply matches_star_inv in H. exact H. Qed.

Lemma matches_open_inv (p : regex) (s : text) (g g' : caps) (r : text) :
  matches ua (GOpen :: p) s g g' r -> matches ua p s (Some s, snd g) g' r.
Proof. now inversion 1. Qed.

Lemma matches_close_inv (p : regex) (s : text) (g g' : caps) (r : text) :
  matches ua (GClose :: p) s g g' r -> matches ua p s (fst g, Some s) g' r.
Proof. now inversion 1. Qed.

Lemma no_group_header : no_group header.
Proof.
  unfold header, args, ws, ws1.
  repeat (apply no_group_app; [first [apply no_group_lit
                                     | repeat constructor]|]).
  repeat constructor.
Qed.

Lemma no_group_guard (call : string) : no_group (guard call).
Proof.
  unfold guard, args, ws, ws1.
  repeat (apply no_group_app; [first [apply no_group_lit
                                     | repeat constructor]|]).
  apply no_group_lit.
Qed.

Lemma header_split : header = header_front ++ lit "{" ++ ws.
Proof. reflexivity. Qed.

Lemma guard_split (call : string) :
  guard call = ws ++ lit "const" ++ guard_rest call.
Proof. reflexivity. Qed.

Lemma between_app (h u : text) : between (h ++ u) u = h.
Proof.
  unfold between. rewrite length_app.
  replace (length h + length u - length u)%nat with (length h) by lia.
  rewrite firstn_app, firstn_all, Nat.sub_diag. simpl. apply app_nil_r.
Qed.

(** A guard pattern matches a header that ends with its opening brace and
    white space, followed by white space, [const] and the rest of the guard;
    group 1 is the header with the white space behind the brace. *)
Lemma guard_match_shape (call : string) (s : text) (g : caps) (r : text) :
  match_at ua (guard_pattern call) s (None, None) = Some (g, r) ->
  exists h0 w w2 mid,
    s = (h0 ++ str "{" ++ w) ++ (w2 ++ str "const" ++ mid) ++ r
    /\ spaces w /\ spaces w2
    /\ group1 g = h0 ++ str "{" ++ w.
Proof.
  intros H. apply match_at_sound in H.
  change (guard_pattern call)
    with (GOpen :: (header ++ GClose :: guard call)) in H.
  apply matches_open_inv in H. cbn [snd] in H.
  apply matches_app in H as (g1 & u & Hh & Hg).
  pose proof (matches_no_group ua _ _ _ _ _ no_group_header Hh) as ->.
  apply matches_close_inv in Hg. cbn [fst] in Hg.
  pose proof (matches_no_group ua _ _ _ _ _ (no_group_guard call) Hg) as ->.
  rename Hg into H2.
  rewrite header_split in Hh.
  apply matches_app in Hh as (g1 & u1 & Hf & Hb).
  apply matches_prefix in Hf as (h0 & -> & _).
  apply matches_lit in Hb as (u2 & -> & Hb).
  rewrite <- (app_nil_r ws) in Hb.
  apply matches_ws in Hb as (w & u3 & -> & Hw & Hb).
  inversion Hb; subst.
  rewrite guard_split in H2.
  apply matches_ws in H2 as (w2 & u4 & -> & Hw2 & H2).
  apply matches_lit in H2 as (u5 & -> & H2).
  apply matches_prefix in H2 as (mid & -> & _).
  exists h0, w, w2, mid. repeat split; try assumption.
  - now rewrite <- !app_assoc.
  - unfold group1.
    replace (h0 ++ str "{" ++ w ++ w2 ++ str "const" ++ mid ++ r)
      with ((h0 ++ str "{" ++ w) ++ (w2 ++ str "const" ++ mid ++ r))
      by now rewrite <- !app_assoc.
    apply between_app.
Qed.

End GuardShape.

(** ** Every substitution of the script shortens the text *)

Section Shrinking.

Variable ua : char -> bool.

Lemma sub_length_aux (p : regex) (t : template) (n : nat) (s : text) :
  shrinking ua p t -> (length s <= n)%nat ->
  (length (sub ua p t s) <= length s)%nat
  /\ (search ua p s = true -> (length (sub ua p t s) < length s)%nat).
Proof.
  intros Hp. revert s. induction n as [|n IH]; intros s Hn.
  - destruct s; [|simpl in Hn; lia]. simpl.
    destruct (match_at ua p [] (None, None)) as [[g r]|] eqn:E.
    + apply Hp in E. simpl in E. lia.
    + rewrite sub_nil_nomatch by assumption. split; [simpl; lia|discriminate].
  - destruct (match_at ua p s (None, None)) as [[g r]|] eqn:E.
    + pose proof (Hp _ _ _ E) as L.
      rewrite (sub_replace ua p t s r g E) by lia.
      rewrite length_app. destruct (IH r) as [L' _]; [lia|]. lia.
    + destruct s as [|c s].
      * rewrite sub_nil_nomatch by assumption. simpl. rewrite E.
        split; [lia|discriminate].
      * rewrite sub_skip by assumption. cbn [search]. rewrite E.
        destruct (IH s) as [L1 L2]; [simpl in Hn; lia|].
        simpl. split; [lia|]. intros H. specialize (L2 H). lia.
Qed.

Lemma sub_length (p : regex) (t : template) (s : text) :
  shrinking ua p t -> (length (sub ua p t s) <= length s)%nat.
Proof. intros Hp. now apply (sub_length_aux p t (length s) s Hp). Qed.

Lemma shrinking_import (p : regex) : In p auth_imports -> shrinking ua p [].
Proof.
  intros Hin s g r E. apply match_at_length in E. simpl.
  assert (L : (1 <= min_len p)%nat).
  { destruct Hin as [<-|[<-|[<-|[<-|[]]]]]; vm_compute; lia. }
  lia.
Qed.

Lemma shrinking_guard (call : string) :
  shrinking ua (guard_pattern call) [RGroup1].
Proof.
  intros s g r E.
  apply guard_match_shape in E as (h0 & w & w2 & mid & -> & _ & _ & E).
  cbn [expand flat_map]. rewrite app_nil_r, E.
  rewrite !length_app. simpl. lia.
Qed.

Lemma shrinking_blank_lines : shrinking ua blank_lines [RChar NL; RChar NL].
Proof.
  intros s g r E. apply match_at_length in E. simpl in *. lia.
Qed.

Lemma remove_imports_length (s : text) :
  (length (remove_imports ua s) <= length s)%nat.
Proof.
  unfold remove_imports.
  assert (H : forall l, incl l auth_imports -> forall x,
             (length (fold_left (fun c p => sub ua p [] c) l x)
              <= length x)%nat).
  { induction l as [|p l IH]; intros Hl x; simpl; [lia|].
    etransitivity; [apply IH|apply sub_length, shrinking_import].
    - intros q Hq. apply Hl. now right.
    - apply Hl. now left. }
  apply H, incl_refl.
Qed.

Lemma remove_guards_length (s : text) :
  (length (remove_guards ua s) <= length s)%nat.
Proof.
  unfold remove_guards, auth_check_patterns. cbn [fold_left].
  etransitivity; [apply sub_length, shrinking_guard|].
  apply sub_length, shrinking_guard.
Qed.

Lemma collapse_length (s : text) :
  (length (collapse_blank_lines ua s) <= length s)%nat.
Proof. apply sub_length, shrinking_blank_lines. Qed.


End Shrinking.

(** ** Removing an import statement *)

Section ImportRemoval.

Variable ua : char -> bool.

Lemma match_k_inv (q : regex) (K : text -> caps -> option (caps * text))
      (s : text) (g : caps) (res : caps * text) :
  match_k ua q K s g = Some res -> exists u g1, K u g1 = Some res.
Proof.
  revert s g. induction q as [|a q IH]; intros s g; simpl.
  - eauto.
  - destruct a as [k [| | |]| |].
    + destruct s as [|c s]; [discriminate|].
      destruct (cc ua k c); [apply IH|discriminate].
    + destruct s as [|c s]; [apply IH|].
      destruct (cc ua k c); [|apply IH].
      destruct (match_k ua q K s g) eqn:E; [intros [= <-]; eauto|apply IH].
    + intros H. apply star_inv in H as (pre & u & _ & _ & H). eauto.
    + destruct s as [|c s]; [discriminate|].
      destruct (cc ua k c); [|discriminate].
      intros H. apply star_inv in H as (pre & u & _ & _ & H). eauto.
    + apply IH.
    + apply IH.
Qed.

(** Whatever an import pattern matches, the text left after the match does
    not start with white space: all the white space behind the semicolon
    belongs to the match. *)
Lemma import_match_takes_space (names : regex) (s : text) (g g' : caps)
      (r : text) :
  match_at ua (import_pattern names) s g = Some (g', r) ->
  hard_start r = true.
Proof.
  rewrite import_pattern_split, match_k_app. intros H.
  apply match_k_inv in H as (u & g1 & H). rewrite import_tail in H.
  injection H as _ <-. apply drop_space_hard.
Qed.

(** A statement that the front of the pattern runs through is deleted with
    the white space that follows it, and the scan goes on behind. *)
Lemma import_removed (names : regex) (stmt rest : text) :
  stmt <> [] ->
  (forall K g, match_k ua (import_front names) K (stmt ++ rest) g = K rest g) ->
  sub ua (import_pattern names) [] (stmt ++ rest)
  = sub ua (import_pattern names) [] (drop_space rest).
Proof.
  intros Hne Hfront.
  assert (E : match_at ua (import_pattern names) (stmt ++ rest) (None, None)
              = Some ((None, None), drop_space rest)).
  { now rewrite import_pattern_split, match_k_app, Hfront, import_tail. }
  rewrite (sub_replace ua _ _ _ _ _ E); [reflexivity|].
  rewrite length_app. pose proof (drop_space_length rest).
  destruct stmt; [congruence|simpl; lia].
Qed.

Lemma import_auth_removed (rest : text) :
  sub ua (import_pattern names_auth) [] (import_auth ++ rest)
  = sub ua (import_pattern names_auth) [] (drop_space rest).
Proof.
  apply import_removed; [discriminate|]. intros. apply front_auth.
Qed.

Lemma remove_imports_import_auth (rest : text) :
  remove_imports ua (import_auth ++ rest)
  = remove_imports ua (drop_space rest).
Proof.
  unfold remove_imports, auth_imports. cbn [fold_left].
  change (import_pattern (lit "requireAuth"))
    with (import_pattern names_auth).
  now rewrite import_auth_removed.
Qed.

Lemma transform_import_auth_shorter (rest : text) :
  (length (transform ua (import_auth ++ rest)) <= length rest)%nat.
Proof.
  unfold transform. rewrite remove_imports_import_auth.
  etransitivity; [apply collapse_length|].
  etransitivity; [apply remove_guards_length|].
  etransitivity; [apply remove_imports_length|apply drop_space_length].
Qed.

End ImportRemoval.

(** ** The two-name import in either order *)

Section TwoNames.

Variable ua : char -> bool.

Ltac skip_statement :=
  cbn [str app];
  repeat (rewrite sub_skip by (vm_compute; reflexivity));
  reflexivity.

(** No match of the one-name patterns begins inside a two-name statement. *)
Lemma auth_skips_auth_admin (y : text) :
  sub ua (import_pattern names_auth) [] (import_auth_admin ++ y)
  = import_auth_admin ++ sub ua (import_pattern names_auth) [] y.
Proof. unfold import_auth_admin. skip_statement. Qed.

Lemma admin_skips_auth_admin (y : text) :
  sub ua (import_pattern names_admin) [] (import_auth_admin ++ y)
  = import_auth_admin ++ sub ua (import_pattern names_admin) [] y.
Proof. unfold import_auth_admin. skip_statement. Qed.

Lemma auth_skips_admin_auth (y : text) :
  sub ua (import_pattern names_auth) [] (import_admin_auth ++ y)
  = import_admin_auth ++ sub ua (import_pattern names_auth) [] y.
Proof. unfold import_admin_auth. skip_statement. Qed.

Lemma admin_skips_admin_auth (y : text) :
  sub ua (import_pattern names_admin) [] (import_admin_auth ++ y)
  = import_admin_auth ++ sub ua (import_pattern names_admin) [] y.
Proof. unfold import_admin_auth. skip_statement. Qed.

(** Nor does the pattern of the other order. *)
Lemma auth_admin_skips_admin_auth (y : text) :
  sub ua (import_pattern names_auth_admin) [] (import_admin_auth ++ y)
  = import_admin_auth ++ sub ua (import_pattern names_auth_admin) [] y.
Proof. unfold import_admin_auth. skip_statement. Qed.

(** Each order is deleted by its own pattern. *)
Lemma auth_admin_removed (y : text) :
  sub ua (import_pattern names_auth_admin) [] (import_auth_admin ++ y)
  = sub ua (import_pattern names_auth_admin) [] (drop_space y).
Proof.
  apply import_removed; [discriminate|]. intros. apply front_auth_admin.
Qed.

Lemma admin_auth_removed (y : text) :
  sub ua (import_pattern names_admin_auth) [] (import_admin_auth ++ y)
  = sub ua (import_pattern names_admin_auth) [] (drop_space y).
Proof.
  apply import_removed; [discriminate|]. intros. apply front_admin_auth.
Qed.

End TwoNames.

Section ImportScan.

Variable ua : char -> bool.

Lemma auth_imports_named :
  auth_imports = [ import_pattern names_auth; import_pattern names_admin;
                   import_pattern names_auth_admin;
                   import_pattern names_admin_auth ].
Proof. reflexivity. Qed.

Lemma import_no_match_nil (names : regex) (g : caps) :
  match_at ua (import_pattern names) [] g = None.
Proof. reflexivity. Qed.

Lemma import_no_match_space (names : regex) (c : char) (x : text) (g : caps) :
  is_space c = true -> match_at ua (import_pattern names) (c :: x) g = None.
Proof.
  intros Hc.
  assert (E : exists p', import_pattern names = A (Lit 105) One :: p')
    by (eexists; reflexivity).
  destruct E as [p' ->]. cbn [match_at cc].
  destruct (N.eqb_spec c 105) as [->|_]; [discriminate|reflexivity].
Qed.

(** The scan of an import pattern keeps a text that does not start with
    white space from starting with white space. *)
Lemma sub_import_hard_aux (names : regex) (n : nat) (x : text) :
  (length x <= n)%nat -> hard_start x = true ->
  hard_start (sub ua (import_pattern names) [] x) = true.
Proof.
  revert x. induction n as [|n IH]; intros x Hn Hx.
  - destruct x; [reflexivity|simpl in Hn; lia].
  - destruct (match_at ua (import_pattern names) x (None, None))
      as [[g r]|] eqn:E.
    + assert (L : (length r < length x)%nat).
      { apply match_at_length in E.
        assert (exists p', import_pattern names = A (Lit 105) One :: p')
          as [p' Ep] by (eexists; reflexivity).
        rewrite Ep in E. simpl in E. lia. }
      rewrite (sub_replace ua _ _ x r g E L). simpl.
      apply IH; [lia|]. eapply import_match_takes_space, E.
    + destruct x as [|c x]; [reflexivity|].
      rewrite sub_skip by assumption. exact Hx.
Qed.

Lemma sub_import_drop (names : regex) (x : text) :
  sub ua (import_pattern names) [] (drop_space x)
  = drop_space (sub ua (import_pattern names) [] x).
Proof.
  induction x as [|c x IH]; [reflexivity|].
  cbn [drop_space]. destruct (is_space c) eqn:Ec.
  - rewrite (sub_skip ua _ _ c x) by now apply import_no_match_space.
    cbn [drop_space]. now rewrite Ec.
  - symmetry. apply drop_space_id.
    apply (sub_import_hard_aux names (length (c :: x))); [lia|].
    simpl. now rewrite Ec.
Qed.

(** The import step treats a text that starts with the two names in one
    order as it treats the text with the other order. *)
Lemma remove_imports_either_order (post : text) :
  remove_imports ua (import_auth_admin ++ post)
  = remove_imports ua (import_admin_auth ++ post).
Proof.
  unfold remove_imports. rewrite auth_imports_named. cbn [fold_left].
  rewrite auth_skips_auth_admin, admin_skips_auth_admin, auth_admin_removed.
  rewrite auth_skips_admin_auth, admin_skips_admin_auth,
    auth_admin_skips_admin_auth, admin_auth_removed.
  now rewrite sub_import_drop.
Qed.

Lemma remove_imports_two_names_shorter (post : text) :
  (length (remove_imports ua (import_admin_auth ++ post)) <= length post)%nat.
Proof.
  unfold remove_imports. rewrite auth_imports_named. cbn [fold_left].
  rewrite auth_skips_admin_auth, admin_skips_admin_auth,
    auth_admin_skips_admin_auth, admin_auth_removed.
  assert (S : forall names x,
             In (import_pattern names) auth_imports ->
             (length (sub ua (import_pattern names) [] x) <= length x)%nat).
  { intros names x Hin. now apply sub_length, shrinking_import. }
  etransitivity; [apply S; simpl; tauto|].
  etransitivity; [apply drop_space_length|].
  etransitivity; [apply S; simpl; tauto|].
  etransitivity; [apply S; simpl; tauto|].
  apply S; simpl; tauto.
Qed.

End ImportScan.

(** ** Text before an import statement *)

Section Before.

Variable ua : char -> bool.


Lemma comment_line_import_free : import_free ua comment_line.
Proof.
  intros p y [<-|[<-|[<-|[<-|[]]]]]; unfold comment_line; cbn [str app];
    repeat (rewrite sub_skip by (vm_compute; reflexivity)); reflexivity.
Qed.

Lemma remove_imports_before (pre x : text) :
  import_free ua pre ->
  remove_imports ua (pre ++ x) = pre ++ remove_imports ua x.
Proof.
  intros H. unfold remove_imports.
  assert (G : forall l, incl l auth_imports -> forall z,
             fold_left (fun c p => sub ua p [] c) l (pre ++ z)
             = pre ++ fold_left (fun c p => sub ua p [] c) l z).
  { induction l as [|p l IH]; intros Hl z; [reflexivity|]. cbn [fold_left].
    rewrite H by (apply Hl; now left).
    apply IH. intros q Hq. apply Hl. now right. }
  apply G, incl_refl.
Qed.

Lemma guards_and_blank_lines_length (x : text) :
  (length (collapse_blank_lines ua (remove_guards ua x)) <= length x)%nat.
Proof.
  etransitivity; [apply collapse_length|apply remove_guards_length].
Qed.

End Before.

(** ** A file changes exactly when a pattern appears in it *)

Section Fixed.

Variable ua : char -> bool.

Lemma sub_fixed (p : regex) (t : template) (s : text) :
  shrinking ua p t ->
  (length s <= length (sub ua p t s))%nat ->
  search ua p s = false /\ sub ua p t s = s.
Proof.
  intros Hp L.
  destruct (search ua p s) eqn:E.
  - exfalso.
    destruct (sub_length_aux ua p t (length s) s Hp (le_n _)) as [_ H].
    specialize (H E). lia.
  - split; [reflexivity|now apply sub_no_match].
Qed.

Lemma transform_fixed (s : text) :
  transform ua s = s ->
  no_auth_pattern ua s = true /\ search ua blank_lines s = false.
Proof.
  intros E.
  assert (I : forall q x, In q auth_imports ->
                          (length (sub ua q [] x) <= length x)%nat)
    by (intros; now apply sub_length, shrinking_import).
  assert (G : forall call x,
             (length (sub ua (guard_pattern call) [RGroup1] x)
              <= length x)%nat)
    by (intros; apply sub_length, shrinking_guard).
  revert E. unfold transform, collapse_blank_lines, remove_guards,
    remove_imports, no_auth_pattern, auth_check_patterns.
  rewrite auth_imports_named. cbn [fold_left app forallb].
  remember (sub ua (import_pattern names_auth) [] s) as s1 eqn:D1.
  remember (sub ua (import_pattern names_admin) [] s1) as s2 eqn:D2.
  remember (sub ua (import_pattern names_auth_admin) [] s2) as s3 eqn:D3.
  remember (sub ua (import_pattern names_admin_auth) [] s3) as s4 eqn:D4.
  remember (sub ua (guard_pattern "requireAuth") [RGroup1] s4) as s5 eqn:D5.
  remember (sub ua (guard_pattern "requireAdmin") [RGroup1] s5) as s6 eqn:D6.
  intros E.
  assert (L1 : (length s1 <= length s)%nat)
    by (rewrite D1; apply I; simpl; tauto).
  assert (L2 : (length s2 <= length s1)%nat)
    by (rewrite D2; apply I; simpl; tauto).
  assert (L3 : (length s3 <= length s2)%nat)
    by (rewrite D3; apply I; simpl; tauto).
  assert (L4 : (length s4 <= length s3)%nat)
    by (rewrite D4; apply I; simpl; tauto).
  assert (L5 : (length s5 <= length s4)%nat) by (rewrite D5; apply G).
  assert (L6 : (length s6 <= length s5)%nat) by (rewrite D6; apply G).
  pose proof (collapse_length ua s6) as L7.
  unfold collapse_blank_lines in L7. rewrite E in L7.
  destruct (sub_fixed (import_pattern names_auth) [] s) as [F1 E1];
    [apply shrinking_import; simpl; tauto|rewrite <- D1; lia|].
  rewrite E1 in D1. subst s1.
  destruct (sub_fixed (import_pattern names_admin) [] s) as [F2 E2];
    [apply shrinking_import; simpl; tauto|rewrite <- D2; lia|].
  rewrite E2 in D2. subst s2.
  destruct (sub_fixed (import_pattern names_auth_admin) [] s) as [F3 E3];
    [apply shrinking_import; simpl; tauto|rewrite <- D3; lia|].
  rewrite E3 in D3. subst s3.
  destruct (sub_fixed (import_pattern names_admin_auth) [] s) as [F4 E4];
    [apply shrinking_import; simpl; tauto|rewrite <- D4; lia|].
  rewrite E4 in D4. subst s4.
  destruct (sub_fixed (guard_pattern "requireAuth") [RGroup1] s) as [F5 E5];
    [apply shrinking_guard|rewrite <- D5; lia|].
  rewrite E5 in D5. subst s5.
  destruct (sub_fixed (guard_pattern "requireAdmin") [RGroup1] s) as [F6 E6];
    [apply shrinking_guard|rewrite <- D6; lia|].
  rewrite E6 in D6. subst s6.
  destruct (sub_fixed blank_lines [RChar NL; RChar NL] s) as [F7 _];
    [apply shrinking_blank_lines|rewrite E; lia|].
  split; [|exact F7].
  now rewrite F1, F2, F3, F4, F5, F6.
Qed.

End Fixed.

(** ** The script only deletes characters *)

Section Deleting.

Variable ua : char -> bool.

Lemma subseq_refl (a : text) : subseq a a.
Proof. induction a; constructor; assumption. Qed.

Lemma subseq_nil_l (b : text) : subseq [] b.
Proof. induction b; constructor; assumption. Qed.

Lemma subseq_app (a b c d : text) :
  subseq a b -> subseq c d -> subseq (a ++ c) (b ++ d).
Proof. induction 1; simpl; intros; try constructor; auto. Qed.

Lemma subseq_trans (a b c : text) : subseq a b -> subseq b c -> subseq a c.
Proof.
  intros H1 H2. revert a H1.
  induction H2 as [|x b c H IH|x b c H IH]; intros a H1.
  - exact H1.
  - inversion H1; subst.
    + constructor. now apply IH.
    + apply subseq_drop. now apply IH.
  - apply subseq_drop. now apply IH.
Qed.

Lemma subseq_length (a b : text) : subseq a b -> (length a <= length b)%nat.
Proof. induction 1; simpl; lia. Qed.

Lemma sub_subseq_aux (p : regex) (t : template) (n : nat) (s : text) :
  deleting ua p t -> (length s <= n)%nat -> subseq (sub ua p t s) s.
Proof.
  intros Hp. revert s. induction n as [|n IH]; intros s Hn.
  - destruct s; [|simpl in Hn; lia]. unfold sub. simpl.
    destruct (match_at ua p [] (None, None)) as [[g r]|] eqn:E.
    + apply Hp in E as [L _]. simpl in L. lia.
    + constructor.
  - destruct (match_at ua p s (None, None)) as [[g r]|] eqn:E.
    + destruct (Hp _ _ _ E) as (L & m & Es & Hm).
      rewrite (sub_replace ua p t s r g E L). rewrite Es at 1.
      apply subseq_app; [exact Hm|]. apply IH. lia.
    + destruct s as [|c s].
      * rewrite sub_nil_nomatch by assumption. constructor.
      * rewrite sub_skip by assumption. constructor. apply IH.
        simpl in Hn. lia.
Qed.

Lemma sub_subseq (p : regex) (t : template) (s : text) :
  deleting ua p t -> subseq (sub ua p t s) s.
Proof. intros Hp. now apply (sub_subseq_aux p t (length s)). Qed.

Lemma deleting_import (p : regex) : In p auth_imports -> deleting ua p [].
Proof.
  intros Hin s g r E. split.
  - pose proof (shrinking_import ua p Hin s g r E) as L. simpl in L. lia.
  - apply match_at_sound, matches_prefix in E as (m & -> & _).
    exists m. split; [reflexivity|]. apply subseq_nil_l.
Qed.

Lemma deleting_guard (call : string) :
  deleting ua (guard_pattern call) [RGroup1].
Proof.
  intros s g r E. split.
  - pose proof (shrinking_guard ua call s g r E). lia.
  - apply guard_match_shape in E as (h0 & w & w2 & mid & -> & _ & _ & E).
    exists ((h0 ++ str "{" ++ w) ++ w2 ++ str "const" ++ mid). split.
    + now rewrite <- !app_assoc.
    + cbn [expand flat_map]. rewrite app_nil_r, E.
      rewrite <- (app_nil_r (h0 ++ str "{" ++ w)) at 1.
      apply subseq_app; [apply subseq_refl|apply subseq_nil_l].
Qed.

Lemma deleting_blank_lines : deleting ua blank_lines [RChar NL; RChar NL].
Proof.
  intros s g r E. split.
  - pose proof (shrinking_blank_lines ua s g r E). lia.
  - apply match_at_sound, matches_blank_lines in E
      as (w1 & w2 & -> & _ & _).
    exists (NL :: w1 ++ NL :: w2 ++ [NL]). split.
    + simpl. rewrite <- !app_assoc. simpl. rewrite <- app_assoc. reflexivity.
    + cbn [expand flat_map app]. constructor.
      change [NL] with ([] ++ [NL]).
      apply subseq_app; [apply subseq_nil_l|].
      constructor. apply subseq_nil_l.
Qed.

Lemma remove_imports_subseq (s : text) : subseq (remove_imports ua s) s.
Proof.
  unfold remove_imports.
  assert (H : forall l, incl l auth_imports -> forall x,
             subseq (fold_left (fun c p => sub ua p [] c) l x) x).
  { induction l as [|p l IH]; intros Hl x; simpl; [apply subseq_refl|].
    eapply subseq_trans; [apply IH|apply sub_subseq, deleting_import].
    - intros q Hq. apply Hl. now right.
    - apply Hl. now left. }
  apply H, incl_refl.
Qed.

Lemma remove_guards_subseq (s : text) : subseq (remove_guards ua s) s.
Proof.
  unfold remove_guards, auth_check_patterns. cbn [fold_left].
  eapply subseq_trans; apply sub_subseq, deleting_guard.
Qed.

End Deleting.

(** X2: the text the script produces is the text it read with some
    characters deleted: the transformation inserts nothing, changes no
    character and keeps the order (so a file is never made longer). *)
Theorem X2_transform_only_deletes (ua : char -> bool) (s : text) :
  subseq (transform ua s) s
  /\ (length (transform ua s) <= length s)%nat.
Proof.
  assert (H : subseq (transform ua s) s).
  { unfold transform, collapse_blank_lines.
    eapply subseq_trans; [apply sub_subseq, deleting_blank_lines|].
    eapply subseq_trans; [apply remove_guards_subseq|].
    apply remove_imports_subseq. }
  split; [exact H|now apply subseq_length].
Qed.

(** ** The blank-line step touches white space only *)

Section WhiteSpaceOnly.

Variable ua : char -> bool.

Lemma filter_spaces (m : text) : spaces m -> filter not_space m = [].
Proof.
  induction 1 as [|c m Hc _ IH]; [reflexivity|].
  simpl. unfold not_space at 1. now rewrite Hc.
Qed.

Lemma collapse_keeps_text_aux (n : nat) (s : text) :
  (length s <= n)%nat ->
  filter not_space (collapse_blank_lines ua s) = filter not_space s
  /\ (In NL s -> In NL (collapse_blank_lines ua s)).
Proof.
  revert s. induction n as [|n IH]; intros s Hn.
  - destruct s; [|simpl in Hn; lia]. split; [reflexivity|intros []].
  - destruct (match_at ua blank_lines s (None, None)) as [[g r]|] eqn:E.
    + rewrite (collapse_replace ua s r g E).
      destruct (blank_lines_result ua s g r E) as (_ & m & -> & Hm & L).
      destruct (IH r) as [F _]; [lia|]. split; [|intros _; now left].
      rewrite filter_app, (filter_spaces m Hm). cbn [app filter].
      change (not_space NL) with false. cbv iota. exact F.
    + destruct s as [|c s]; [split; [reflexivity|intros []]|].
      rewrite (collapse_skip ua c s E).
      destruct (IH s) as [F N]; [simpl in Hn; lia|]. split.
      * simpl. now rewrite F.
      * intros [->|H]; [now left|right; auto].
Qed.

End WhiteSpaceOnly.

(** X3: the blank-line step deletes white space only and never a whole
    line break: the characters other than white space are the same, in the
    same order, before and after it, and a text that holds a newline still
    holds one afterwards. *)
Theorem X3_blank_line_step_touches_white_space_only
        (ua : char -> bool) (s : text) :
  filter not_space (collapse_blank_lines ua s) = filter not_space s
  /\ (In NL s -> In NL (collapse_blank_lines ua s)).
Proof. apply (collapse_keeps_text_aux ua (length s)). lia. Qed.

(** ** Running a pattern over a known layout *)

Section Layout.

Variable ua : char -> bool.

Lemma match_k_lit (a : string) (q : regex) K (x : text) (g : caps) :
  match_k ua (lit a ++ q) K (str a ++ x) g = match_k ua q K x g.
Proof.
  unfold lit. induction (str a) as [|c l IH]; [reflexivity|].
  cbn [map app match_k cc]. now rewrite N.eqb_refl.
Qed.

Lemma match_k_char (k : cclass) (q : regex) K (c : char) (x : text)
      (g : caps) :
  cc ua k c = true ->
  match_k ua (A k One :: q) K (c :: x) g = match_k ua q K x g.
Proof. intros H. cbn [match_k]. now rewrite H. Qed.

(** A greedy repetition followed by text outside its class stops there if
    the rest of the pattern goes through. *)
Lemma star_run (k : cclass) (K : text -> option (caps * text))
      (w x : text) (r : caps * text) :
  Forall (fun c => cc ua k c = true) w ->
  match x with [] => True | c :: _ => cc ua k c = false end ->
  K x = Some r ->
  star ua k K (w ++ x) = Some r.
Proof.
  intros Hw Hx HK. induction Hw as [|c w Hc _ IH]; simpl.
  - destruct x as [|c x]; [exact HK|]. simpl. now rewrite Hx.
  - now rewrite Hc, IH.
Qed.

Lemma match_k_star (k : cclass) (q : regex) K (w x : text) (g : caps)
      (r : caps * text) :
  Forall (fun c => cc ua k c = true) w ->
  match x with [] => True | c :: _ => cc ua k c = false end ->
  match_k ua q K x g = Some r ->
  match_k ua (A k Star :: q) K (w ++ x) g = Some r.
Proof. intros. cbn [match_k]. now apply star_run. Qed.

Lemma match_k_plus (k : cclass) (q : regex) K (w x : text) (g : caps)
      (r : caps * text) :
  w <> [] ->
  Forall (fun c => cc ua k c = true) w ->
  match x with [] => True | c :: _ => cc ua k c = false end ->
  match_k ua q K x g = Some r ->
  match_k ua (A k Plus :: q) K (w ++ x) g = Some r.
Proof.
  intros Hne Hw Hx HK. destruct w as [|c w]; [congruence|].
  inversion Hw; subst. cbn [match_k app].
  match goal with H : cc ua k c = true |- _ => rewrite H end.
  now apply star_run.
Qed.

Lemma match_k_ws (q : regex) K (w x : text) (g : caps) (r : caps * text) :
  spaces w -> hard_start x = true ->
  match_k ua q K x g = Some r ->
  match_k ua (ws ++ q) K (w ++ x) g = Some r.
Proof.
  intros Hw Hx HK. apply match_k_star; [exact Hw| |exact HK].
  destruct x as [|c x]; [exact I|]. simpl in *. now apply negb_true_iff.
Qed.

Lemma match_k_ws1 (q : regex) K (w x : text) (g : caps) (r : caps * text) :
  w <> [] -> spaces w -> hard_start x = true ->
  match_k ua q K x g = Some r ->
  match_k ua (ws1 ++ q) K (w ++ x) g = Some r.
Proof.
  intros Hne Hw Hx HK. apply match_k_plus; [exact Hne|exact Hw| |exact HK].
  destruct x as [|c x]; [exact I|]. simpl in *. now apply negb_true_iff.
Qed.

Lemma quote_cases (q : char) : In q [39; 34] -> q = 39 \/ q = 34.
Proof. simpl. intuition. Qed.

(** The import pattern of requireAuth runs through the statement in any
    layout and takes the white space behind it. *)
Lemma import_statement_match (w1 w2 w3 w4 w5 : text) (q1 q2 : char)
      (rest : text) :
  spaces w1 -> spaces w2 -> spaces w3 -> spaces w4 -> spaces w5 ->
  In q1 [39; 34] -> In q2 [39; 34] ->
  match_at ua (import_pattern names_auth)
           (import_statement w1 w2 w3 w4 w5 q1 q2 rest) (None, None)
  = Some ((None, None), drop_space rest).
Proof.
  intros H1 H2 H3 H4 H5 Q1 Q2.
  rewrite import_pattern_split, match_k_app.
  unfold import_front, import_statement, names_auth, quote.
  rewrite match_k_lit. apply match_k_ws; [exact H1|reflexivity|].
  rewrite match_k_lit. apply match_k_ws; [exact H2|reflexivity|].
  rewrite match_k_lit. apply match_k_ws; [exact H3|reflexivity|].
  rewrite match_k_lit. apply match_k_ws; [exact H4|reflexivity|].
  rewrite match_k_lit. apply match_k_ws; [exact H5| |].
  { destruct (quote_cases q1 Q1) as [-> | ->]; reflexivity. }
  cbn [app]. rewrite match_k_char
    by (destruct (quote_cases q1 Q1) as [-> | ->]; reflexivity).
  rewrite match_k_lit. cbn [app]. rewrite match_k_char
    by (destruct (quote_cases q2 Q2) as [-> | ->]; reflexivity).
  rewrite <- (app_nil_r (lit ";")), match_k_lit. cbn [match_k].
  apply import_tail.
Qed.

End Layout.

(** X8: the single-name import of requireAuth is recognised in any layout:
    with any white space, line breaks included, between its tokens and
    with a single or a double quote on either side of the module name,
    alike or not.  Behind text in which no import match begins, the import
    step keeps that text, deletes the statement with all the white space
    that follows it, and goes on with the rest. *)
Theorem X8_import_in_any_layout
        (ua : char -> bool) (w1 w2 w3 w4 w5 : text) (q1 q2 : char)
        (pre rest : text) :
  spaces w1 -> spaces w2 -> spaces w3 -> spaces w4 -> spaces w5 ->
  In q1 [39; 34] -> In q2 [39; 34] ->
  import_free ua pre ->
  remove_imports ua (pre ++ import_statement w1 w2 w3 w4 w5 q1 q2 rest)
  = pre ++ remove_imports ua (drop_space rest).
Proof.
  intros H1 H2 H3 H4 H5 Q1 Q2 Hpre.
  rewrite remove_imports_before by assumption. f_equal.
  pose proof (import_statement_match ua w1 w2 w3 w4 w5 q1 q2 rest
                H1 H2 H3 H4 H5 Q1 Q2) as E.
  assert (L : (length (drop_space rest)
               < length (import_statement w1 w2 w3 w4 w5 q1 q2 rest))%nat).
  { pose proof (shrinking_import ua (import_pattern names_auth)
                  ltac:(simpl; tauto) _ _ _ E) as L. simpl in L. exact L. }
  unfold remove_imports. rewrite auth_imports_named. cbn [fold_left].
  now rewrite (sub_replace ua _ [] _ _ _ E L).
Qed.

Lemma X8_import_in_any_layout_witness :
  remove_imports no_unicode_alnum
    ([] ++ import_statement [] [NL; 32; 32] [NL] [32] [32] 34 39
             (NL :: NL :: const_x))
  = [] ++ remove_imports no_unicode_alnum (drop_space (NL :: NL :: const_x)).
Proof.
  apply (X8_import_in_any_layout no_unicode_alnum
           [] [NL; 32; 32] [NL] [32] [32] 34 39 [] (NL :: NL :: const_x));
    try (repeat constructor; fail); simpl; tauto.
Defined.

(** ** A guarded function in any layout *)

Section GuardLayout.

Variable ua : char -> bool.

Lemma match_at_k (p : regex) (s : text) (g : caps) :
  match_at ua p s g = match_k ua p (fun t g' => Some (g', t)) s g.
Proof. rewrite <- (app_nil_r p) at 1. apply match_k_app. Qed.

Lemma match_k_ws_nil (q : regex) K (x : text) (g : caps) (r : caps * text) :
  hard_start x = true ->
  match_k ua q K x g = Some r ->
  match_k ua (ws ++ q) K x g = Some r.
Proof. intros. now apply (match_k_ws ua q K [] x); [constructor| |]. Qed.

Lemma hard_start_app (x y : text) :
  x <> [] -> hard_start x = true -> hard_start (x ++ y) = true.
Proof. destruct x; [congruence|auto]. Qed.

Lemma guard_layout_match (L : guard_layout) (call : string)
      (name params given rest : text) :
  layout_ok L ->
  call = "requireAuth" \/ call = "requireAdmin" ->
  name <> [] -> Forall (fun c => is_word ua c = true) name ->
  hard_start name = true ->
  Forall (fun c => c <> 41) params -> Forall (fun c => c <> 41) given ->
  match_at ua (guard_pattern call)
           (function_header L name params ++ guard_statements L call given rest)
           (None, None)
  = Some ((Some (function_header L name params
                 ++ guard_statements L call given rest),
           Some (guard_statements L call given rest)), rest).
Proof.
  intros (E1 & E2 & E3 & E4 & E5 & E6 & E7 & E8 & E9 & E10 & E11 & E12
          & E13 & E14 & E15 & E16 & E17) Hcall Hne Hname Hhard Hpar Harg.
  assert (NC : forall l, Forall (fun c => c <> 41) l ->
                         Forall (fun c => cc ua (NotChar 41) c = true) l).
  { intros l Hl. eapply Forall_impl; [|exact Hl]. intros c Hc. simpl.
    now apply negb_true_iff, N.eqb_neq. }
  rewrite match_at_k.
  unfold guard_pattern, header, guard, args, function_header,
    guard_statements.
  rewrite <- !app_assoc. cbn [app match_k fst snd].
  rewrite match_k_lit.
  apply match_k_ws1; [apply E1|apply E1|reflexivity|].
  rewrite match_k_lit.
  apply match_k_ws1; [apply E2|apply E2|reflexivity|].
  rewrite match_k_lit.
  apply match_k_ws1; [apply E3|apply E3|now apply hard_start_app|].
  apply match_k_plus; [exact Hne|exact Hname|reflexivity|].
  rewrite match_k_lit.
  apply match_k_star; [now apply NC|reflexivity|].
  rewrite match_k_lit.
  apply match_k_ws; [exact E4|reflexivity|].
  rewrite match_k_lit.
  apply match_k_ws; [exact E5|reflexivity|].
  cbn [match_k fst snd].
  apply match_k_ws_nil; [reflexivity|].
  rewrite match_k_lit.
  apply match_k_ws1; [apply E6|apply E6|reflexivity|].
  rewrite match_k_lit.
  apply match_k_ws; [exact E7|reflexivity|].
  rewrite match_k_lit.
  apply match_k_ws; [exact E8|destruct Hcall as [-> | ->]; reflexivity|].
  rewrite match_k_lit. rewrite match_k_lit.
  apply match_k_star; [now apply NC|reflexivity|].
  rewrite match_k_lit. rewrite match_k_lit.
  apply match_k_ws; [exact E9|reflexivity|].
  rewrite match_k_lit.
  apply match_k_ws; [exact E10|reflexivity|].
  rewrite match_k_lit.
  apply match_k_ws; [exact E11|reflexivity|].
  rewrite match_k_lit.
  apply match_k_ws; [exact E12|reflexivity|].
  rewrite match_k_lit.
  apply match_k_ws; [exact E13|reflexivity|].
  rewrite match_k_lit.
  apply match_k_ws; [exact E14|reflexivity|].
  rewrite match_k_lit.
  apply match_k_ws1; [apply E15|apply E15|reflexivity|].
  rewrite match_k_lit.
  apply match_k_ws; [exact E16|reflexivity|].
  rewrite match_k_lit.
  apply match_k_ws; [exact E17|reflexivity|].
  rewrite <- (app_nil_r (lit "}")), match_k_lit.
  reflexivity.
Qed.

End GuardLayout.

(** X9: a guard that stands directly behind the brace of an exported async
    function is removed in any layout: whatever the function name (word
    characters), the parameters and the arguments of the call (anything but
    a closing parenthesis) and the white space between the tokens, line
    breaks included, the substitution keeps the header through the white
    space behind its brace, deletes the two guard statements and goes on
    with the text behind them. *)
Theorem X9_guard_in_any_layout
        (ua : char -> bool) (L : guard_layout) (call : string)
        (name params given rest : text) :
  layout_ok L ->
  call = "requireAuth" \/ call = "requireAdmin" ->
  name <> [] -> Forall (fun c => is_word ua c = true) name ->
  hard_start name = true ->
  Forall (fun c => c <> 41) params -> Forall (fun c => c <> 41) given ->
  sub ua (guard_pattern call) [RGroup1]
      (function_header L name params ++ guard_statements L call given rest)
  = function_header L name params
    ++ sub ua (guard_pattern call) [RGroup1] rest.
Proof.
  intros HL Hcall Hne Hname Hhard Hpar Harg.
  pose proof (guard_layout_match ua L call name params given rest
                HL Hcall Hne Hname Hhard Hpar Harg) as E.
  pose proof (shrinking_guard ua call _ _ _ E) as Len.
  rewrite (sub_replace ua _ _ _ _ _ E) by lia.
  cbn [expand flat_map group1]. now rewrite app_nil_r, between_app.
Qed.

Lemma X9_guard_in_any_layout_witness :
  sub no_unicode_alnum (guard_pattern "requireAuth") [RGroup1]
      (function_header example_layout (str "GET") (str "req")
       ++ guard_statements example_layout "requireAuth" (str "req")
            guarded_GET_rest)
  = function_header example_layout (str "GET") (str "req")
    ++ sub no_unicode_alnum (guard_pattern "requireAuth") [RGroup1]
         guarded_GET_rest.
Proof.
  apply (X9_guard_in_any_layout no_unicode_alnum example_layout
           "requireAuth" (str "GET") (str "req") (str "req")
           guarded_GET_rest).
  - unfold layout_ok, example_layout; cbn;
      repeat split; try discriminate; repeat constructor.
  - now left.
  - discriminate.
  - repeat constructor.
  - reflexivity.
  - repeat constructor; discriminate.
  - repeat constructor; discriminate.
Defined.

(** ** Texts without the first word of a pattern *)

Section Anchors.

Variable ua : char -> bool.





End Anchors.



(** ** Semicolons *)

Section Semicolons.

Variable ua : char -> bool.

(** A literal of the pattern is a character of the text. *)
Lemma matches_literal (p : regex) (s : text) (g g' : caps) (r : text)
      (d : char) :
  matches ua p s g g' r -> In (A (Lit d) One) p -> In d s.
Proof.
  induction 1; intros Hin.
  - destruct Hin.
  - destruct Hin as [Hin|Hin]; [discriminate|auto].
  - destruct Hin as [Hin|Hin]; [discriminate|auto].
  - destruct Hin as [Hin|Hin].
    + injection Hin as ->. apply cc_lit in H as ->. now left.
    + right. auto.
  - destruct Hin as [Hin|Hin]; [discriminate|auto].
  - destruct Hin as [Hin|Hin]; [discriminate|right; auto].
  - destruct Hin as [Hin|Hin]; [discriminate|auto].
  - right. auto.
  - destruct Hin as [Hin|Hin]; [discriminate|].
    right. apply IHmatches. now right.
Qed.

Lemma no_literal_no_match (p : regex) (d : char) (s : text) :
  In (A (Lit d) One) p -> ~ In d s -> search ua p s = false.
Proof.
  intros Hp. induction s as [|c s IH]; intros Hs; cbn [search].
  - destruct (match_at ua p [] (None, None)) as [[g r]|] eqn:E;
      [|reflexivity].
    apply match_at_sound in E. elim Hs. eapply matches_literal; eauto.
  - destruct (match_at ua p (c :: s) (None, None)) as [[g r]|] eqn:E.
    + apply match_at_sound in E. elim Hs. eapply matches_literal; eauto.
    + apply IH. intros H. apply Hs. now right.
Qed.

Lemma semicolon_in_import (p : regex) :
  In p auth_imports -> In (A (Lit 59) One) p.
Proof.
  intros [<-|[<-|[<-|[<-|[]]]]]; vm_compute; tauto.
Qed.

Lemma semicolon_in_guard (call : string) :
  In (A (Lit 59) One) (guard_pattern call).
Proof.
  unfold guard_pattern, guard. rewrite !in_app_iff.
  repeat first [ left; solve [vm_compute; tauto] | right ].
Qed.

End Semicolons.

(** X12: every import pattern and every guard pattern holds a semicolon, so
    the import step and the guard step leave a text without semicolons as
    it is: statements written without semicolons are never removed. *)
Theorem X12_no_semicolon_no_removal (ua : char -> bool) (s : text) :
  ~ In 59 s ->
  remove_imports ua s = s /\ remove_guards ua s = s
  /\ transform ua s = collapse_blank_lines ua s.
Proof.
  intros H.
  assert (I : remove_imports ua s = s).
  { unfold remove_imports. rewrite auth_imports_named. cbn [fold_left].
    repeat (rewrite (sub_no_match ua _ _ s)
              by (apply (no_literal_no_match ua _ 59); [|exact H];
                  apply semicolon_in_import; simpl; tauto)).
    reflexivity. }
  assert (G : remove_guards ua s = s).
  { unfold remove_guards, auth_check_patterns. cbn [fold_left].
    repeat (rewrite (sub_no_match ua _ _ s)
              by (apply (no_literal_no_match ua _ 59); [|exact H];
                  apply semicolon_in_guard)).
    reflexivity. }
  split; [exact I|]. split; [exact G|].
  unfold transform. now rewrite I, G.
Qed.

Lemma X12_no_semicolon_no_removal_witness :
  ~ In 59 no_semicolons
  /\ transform no_unicode_alnum no_semicolons = no_semicolons.
Proof.
  assert (H : ~ In 59 no_semicolons).
  { intros H. vm_compute in H.
    repeat (destruct H as [H|H]; [discriminate|]). exact H. }
  split; [exact H|].
  rewrite (proj2 (proj2 (X12_no_semicolon_no_removal no_unicode_alnum
                           no_semicolons H))).
  vm_compute. reflexivity.
Defined.

(** ** Text around a statement *)

Section Around.

Variable ua : char -> bool.












End Around.

(** ** The running example between other text *)

Section Example.

Variable ua : char -> bool.

Ltac skip_text :=
  cbn [str app];
  repeat (rewrite sub_skip by (vm_compute; reflexivity));
  reflexivity.















End Example.

(** ** The four import statements *)

Section ImportStatements.

Variable ua : char -> bool.

Ltac skip_text :=
  cbn [str app];
  repeat (rewrite sub_skip by (vm_compute; reflexivity));
  reflexivity.

Lemma auth_skips_admin (y : text) :
  sub ua (import_pattern names_auth) [] (import_admin ++ y)
  = import_admin ++ sub ua (import_pattern names_auth) [] y.
Proof. unfold import_admin. skip_text. Qed.

Lemma admin_removed (y : text) :
  sub ua (import_pattern names_admin) [] (import_admin ++ y)
  = sub ua (import_pattern names_admin) [] (drop_space y).
Proof.
  apply import_removed; [discriminate|]. intros. apply front_admin.
Qed.

(** Each of the four statements is deleted by the import step, with the
    white space that follows it, and the step works on the rest. *)
Lemma remove_imports_statement (stmt rest : text) :
  In stmt import_statements ->
  remove_imports ua (stmt ++ rest) = remove_imports ua (drop_space rest).
Proof.
  unfold remove_imports. rewrite auth_imports_named. cbn [fold_left].
  intros [<-|[<-|[<-|[<-|[]]]]].
  - now rewrite import_auth_removed.
  - now rewrite auth_skips_admin, admin_removed, !sub_import_drop.
  - now rewrite auth_skips_auth_admin, admin_skips_auth_admin,
      auth_admin_removed, !sub_import_drop.
  - now rewrite auth_skips_admin_auth, admin_skips_admin_auth,
      auth_admin_skips_admin_auth, admin_auth_removed, !sub_import_drop.
Qed.

Lemma remove_imports_around (pre stmt rest : text) :
  import_free ua pre -> In stmt import_statements ->
  remove_imports ua (pre ++ stmt ++ rest)
  = pre ++ remove_imports ua (drop_space rest).
Proof.
  intros I S. rewrite remove_imports_before by assumption.
  now rewrite remove_imports_statement.
Qed.

Lemma statement_not_empty (stmt : text) :
  In stmt import_statements -> (0 < length stmt)%nat.
Proof. intros [<-|[<-|[<-|[<-|[]]]]]; vm_compute; lia. Qed.

(** A file with one of the statements behind text without import matches
    is changed by the script. *)
Lemma transform_statement_changes (pre stmt rest : text) :
  import_free ua pre -> In stmt import_statements ->
  transform ua (pre ++ stmt ++ rest) <> pre ++ stmt ++ rest.
Proof.
  intros I S F.
  assert (L : (length (transform ua (pre ++ stmt ++ rest))
               <= length (remove_imports ua (pre ++ stmt ++ rest)))%nat)
    by apply guards_and_blank_lines_length.
  rewrite F, remove_imports_around in L by assumption.
  rewrite !length_app in L.
  pose proof (remove_imports_length ua (drop_space rest)).
  pose proof (drop_space_length rest).
  pose proof (statement_not_empty stmt S). lia.
Qed.




End ImportStatements.

(** ** The layout of a guard match *)

Section GuardMatch.

Variable ua : char -> bool.
















End GuardMatch.

(** ** One call *)

Section ScriptFacts.

Variable ua : char -> bool.

Lemma except_handler_cases (p : path) (e : exn) (w : world) :
  except_handler p e w
  = match stdout w (console w) (error_line p e) with
    | Some e2 => (inl e2, w)
    | None =>
        (inr false,
         World (files w) (console w ++ [error_line p e]) (stdout w))
    end.
Proof.
  unfold except_handler, bind, print, ret.
  destruct (stdout w (console w) (error_line p e)); reflexivity.
Qed.

(** The ways a call of [remove_auth_from_file] can go: the read raises; the
    text is unchanged; the write succeeds and the success line is printed
    or refused; the write raises.  Every exception raised in the [try]
    block goes to the handler. *)
Lemma remove_auth_from_file_cases (p : path) (w : world) :
  remove_auth_from_file ua p w =
  match on_read (files w p) with
  | inl e => except_handler p e w
  | inr c =>
      if text_eqb (transform ua c) c then (inr false, w)
      else match on_write (files w p) with
           | Written =>
               match stdout w (console w) (removed_line p) with
               | None =>
                   (inr true,
                    World (fun q => if text_eqb q p
                                    then File (inr (transform ua c)) Written
                                    else files w q)
                          (console w ++ [removed_line p]) (stdout w))
               | Some e' =>
                   except_handler p e'
                     (World (fun q => if text_eqb q p
                                      then File (inr (transform ua c)) Written
                                      else files w q)
                            (console w) (stdout w))
               end
           | OpenFails e => except_handler p e w
           | WriteFails e remains =>
               except_handler p e
                 (World (fun q => if text_eqb q p
                                  then File (inr remains) (WriteFails e remains)
                                  else files w q)
                        (console w) (stdout w))
           end
  end.
Proof.
  unfold remove_auth_from_file, try_except, bind, read_text, write_text,
    except_handler.
  destruct (on_read (files w p)) as [e|c]; [reflexivity|].
  destruct (text_eqb (transform ua c) c); simpl; [reflexivity|].
  destruct (on_write (files w p)); simpl; try reflexivity.
  unfold print at 1. simpl.
  destruct (stdout w (console w) (removed_line p)); reflexivity.
Qed.

Lemma except_handler_files (p : path) (e : exn) (w : world) :
  files (snd (except_handler p e w)) = files w
  /\ stdout (snd (except_handler p e w)) = stdout w.
Proof.
  rewrite except_handler_cases.
  destruct (stdout w (console w) (error_line p e)); split; reflexivity.
Qed.

(** What a call leaves in the files does not depend on the console. *)
Lemma call_files (p q : path) (w : world) :
  files (snd (remove_auth_from_file ua p w)) q
  = if text_eqb q p then file_after ua (files w p) else files w q.
Proof.
  rewrite remove_auth_from_file_cases. unfold file_after.
  destruct (on_read (files w p)) as [e|c].
  - rewrite (proj1 (except_handler_files p e w)).
    destruct (text_eqb q p) eqn:E; [|reflexivity].
    now apply text_eqb_eq in E as ->.
  - destruct (text_eqb (transform ua c) c).
    + destruct (text_eqb q p) eqn:E; [|reflexivity].
      now apply text_eqb_eq in E as ->.
    + destruct (on_write (files w p)) as [|e|e remains].
      * destruct (stdout w (console w) (removed_line p));
          [rewrite (proj1 (except_handler_files _ _ _))|]; reflexivity.
      * rewrite (proj1 (except_handler_files p e w)).
        destruct (text_eqb q p) eqn:E; [|reflexivity].
        now apply text_eqb_eq in E as ->.
      * rewrite (proj1 (except_handler_files _ _ _)). reflexivity.
Qed.

Lemma call_stdout (p : path) (w : world) :
  stdout (snd (remove_auth_from_file ua p w)) = stdout w.
Proof.
  rewrite remove_auth_from_file_cases.
  destruct (on_read (files w p)) as [e|c].
  - apply except_handler_files.
  - destruct (text_eqb (transform ua c) c); [reflexivity|].
    destruct (on_write (files w p)) as [|e|e remains].
    + destruct (stdout w (console w) (removed_line p));
        [rewrite (proj2 (except_handler_files _ _ _))|]; reflexivity.
    + apply except_handler_files.
    + rewrite (proj2 (except_handler_files _ _ _)). reflexivity.
Qed.

Lemma call_quiet (p : path) (w : world) :
  quiet w -> quiet (snd (remove_auth_from_file ua p w)).
Proof. unfold quiet. now rewrite call_stdout. Qed.

Lemma remove_auth_from_file_other (p q : path) (w : world) :
  q <> p ->
  files (snd (remove_auth_from_file ua p w)) q = files w q.
Proof.
  intros Hq. rewrite call_files. apply text_eqb_neq in Hq. now rewrite Hq.
Qed.

(** A call on a console that takes every line. *)
Lemma remove_auth_from_file_quiet (p : path) (w : world) :
  quiet w ->
  remove_auth_from_file ua p w =
  match on_read (files w p) with
  | inl e =>
      (inr false, World (files w) (console w ++ [error_line p e]) (stdout w))
  | inr c =>
      if text_eqb (transform ua c) c then (inr false, w)
      else match on_write (files w p) with
           | Written =>
               (inr true,
                World (fun q => if text_eqb q p
                                then File (inr (transform ua c)) Written
                                else files w q)
                      (console w ++ [removed_line p]) (stdout w))
           | OpenFails e =>
               (inr false,
                World (files w) (console w ++ [error_line p e]) (stdout w))
           | WriteFails e remains =>
               (inr false,
                World (fun q => if text_eqb q p
                                then File (inr remains) (WriteFails e remains)
                                else files w q)
                      (console w ++ [error_line p e]) (stdout w))
           end
  end.
Proof.
  intros Q. rewrite remove_auth_from_file_cases.
  destruct (on_read (files w p)) as [e|c].
  - now rewrite except_handler_cases, Q.
  - destruct (text_eqb (transform ua c) c); [reflexivity|].
    destruct (on_write (files w p)) as [|e|e remains].
    + now rewrite Q.
    + now rewrite except_handler_cases, Q.
    + rewrite except_handler_cases. cbn [stdout console files]. now rewrite Q.
Qed.

Lemma remove_auth_from_file_returns (p : path) (w : world) :
  quiet w ->
  fst (remove_auth_from_file ua p w) = inr (rewritten ua w p).
Proof.
  intros Q. rewrite remove_auth_from_file_quiet by assumption.
  unfold rewritten.
  destruct (on_read (files w p)) as [e|c]; [reflexivity|].
  destruct (text_eqb (transform ua c) c); simpl;
    destruct (on_write (files w p)); reflexivity.
Qed.

Lemma call_console (p : path) (w : world) :
  quiet w ->
  console (snd (remove_auth_from_file ua p w)) = console w ++ report ua w p.
Proof.
  intros Q. rewrite remove_auth_from_file_quiet by assumption. unfold report.
  destruct (on_read (files w p)) as [e|c]; [reflexivity|].
  destruct (text_eqb (transform ua c) c); [simpl; now rewrite app_nil_r|].
  destruct (on_write (files w p)); reflexivity.
Qed.

(** The flag is True only behind a write that succeeded and a success line
    that was printed. *)
Lemma flag_true_cases (p : path) (w : world) :
  fst (remove_auth_from_file ua p w) = inr true <->
  exists c, on_read (files w p) = inr c /\ transform ua c <> c
            /\ on_write (files w p) = Written
            /\ stdout w (console w) (removed_line p) = None.
Proof.
  rewrite remove_auth_from_file_cases.
  assert (H : forall e w0, fst (except_handler p e w0) <> inr true).
  { intros e w0. rewrite except_handler_cases.
    destruct (stdout w0 (console w0) (error_line p e)); discriminate. }
  destruct (on_read (files w p)) as [e|c].
  - split; [intros E; now apply H in E|]. intros (c & E & _). discriminate.
  - destruct (text_eqb (transform ua c) c) eqn:Ec.
    + apply text_eqb_eq in Ec. split; [discriminate|].
      intros (c' & [= <-] & N & _). contradiction.
    + apply text_eqb_neq in Ec.
      destruct (on_write (files w p)) as [|e|e remains].
      * destruct (stdout w (console w) (removed_line p)) eqn:Es.
        -- split; [intros E; now apply H in E|].
           intros (c' & _ & _ & _ & F). discriminate.
        -- split; [intros _; exists c; auto|reflexivity].
      * split; [intros E; now apply H in E|].
        intros (c' & _ & _ & F & _). discriminate.
      * split; [intros E; now apply H in E|].
        intros (c' & _ & _ & F & _). discriminate.
Qed.

End ScriptFacts.

Section Rewrites.

Variable ua : char -> bool.

(** A call on a readable, writable file that the script changes, with a
    console that takes the success line: the file is rewritten, the line
    printed and True returned. *)
Lemma call_rewrites (p : path) (w : world) (c : text) :
  on_read (files w p) = inr c ->
  on_write (files w p) = Written ->
  transform ua c <> c ->
  stdout w (console w) (removed_line p) = None ->
  remove_auth_from_file ua p w
  = (inr true,
     World (fun q => if text_eqb q p then File (inr (transform ua c)) Written
                     else files w q)
           (console w ++ [removed_line p]) (stdout w)).
Proof.
  intros Hr Hw Hc Hs. rewrite remove_auth_from_file_cases, Hr, Hw, Hs.
  apply text_eqb_neq in Hc. now rewrite Hc.
Qed.

End Rewrites.

(** ** The running example inside a file (claim C1) *)



(** ** Import lines (claim C5) *)




(** ** Import order (claim C9) *)

(** C9, as the specification states it, fails: with the same text before
    and behind the statement, the file with one order comes out empty and
    the file with the other order keeps an import statement.  (Deleting the
    inner statement joins the text around it into an import of the other
    order, which the fourth pattern, applied after the third, still
    deletes, but the third pattern, applied before the fourth, has no
    chance to.) *)
Lemma C9_orders_differ_inside_another_import :
  transform no_unicode_alnum nested_auth_admin = []
  /\ transform no_unicode_alnum nested_admin_auth = import_admin_auth.
Proof. split; vm_compute; reflexivity. Qed.

(** C9, amended: for two files that hold the two-name import, one in each
    order of the names, behind the same text in which no import match
    begins and before the same text, the import step deletes the statement
    in either order, with the white space that follows it, keeps the text
    before it and goes on with the rest; so the results of the script are
    equal; and, when the files can be written and the console takes the
    success line, both files are rewritten with that result, the success
    line is printed and True is returned for both. *)
Theorem C9_either_order
        (ua : char -> bool) (pre post : text) (w1 w2 : world) (p : path) :
  import_free ua pre ->
  on_read (files w1 p) = inr (pre ++ import_auth_admin ++ post) ->
  on_write (files w1 p) = Written ->
  stdout w1 (console w1) (removed_line p) = None ->
  on_read (files w2 p) = inr (pre ++ import_admin_auth ++ post) ->
  on_write (files w2 p) = Written ->
  stdout w2 (console w2) (removed_line p) = None ->
  remove_imports ua (pre ++ import_auth_admin ++ post)
  = pre ++ remove_imports ua (drop_space post)
  /\ remove_imports ua (pre ++ import_admin_auth ++ post)
     = pre ++ remove_imports ua (drop_space post)
  /\ transform ua (pre ++ import_auth_admin ++ post)
     = transform ua (pre ++ import_admin_auth ++ post)
  /\ remove_auth_from_file ua p w1
     = (inr true,
        World (fun q => if text_eqb q p
                        then File (inr (transform ua
                                          (pre ++ import_auth_admin ++ post)))
                                  Written
                        else files w1 q)
              (console w1 ++ [removed_line p]) (stdout w1))
  /\ remove_auth_from_file ua p w2
     = (inr true,
        World (fun q => if text_eqb q p
                        then File (inr (transform ua
                                          (pre ++ import_auth_admin ++ post)))
                                  Written
                        else files w2 q)
              (console w2 ++ [removed_line p]) (stdout w2)).
Proof.
  intros I Hr1 Hw1 Hs1 Hr2 Hw2 Hs2.
  assert (S1 : In import_auth_admin import_statements) by (simpl; tauto).
  assert (S2 : In import_admin_auth import_statements) by (simpl; tauto).
  pose proof (remove_imports_around ua pre _ post I S1) as E1.
  pose proof (remove_imports_around ua pre _ post I S2) as E2.
  assert (E : transform ua (pre ++ import_auth_admin ++ post)
              = transform ua (pre ++ import_admin_auth ++ post)).
  { unfold transform. now rewrite E1, E2. }
  split; [exact E1|]. split; [exact E2|]. split; [exact E|]. split.
  - apply (call_rewrites ua p w1 _ Hr1 Hw1); [|exact Hs1].
    now apply transform_statement_changes.
  - rewrite E. apply (call_rewrites ua p w2 _ Hr2 Hw2); [|exact Hs2].
    now apply transform_statement_changes.
Qed.

Lemma C9_either_order_witness :
  transform no_unicode_alnum
    (comment_line ++ import_auth_admin ++ NL :: const_x)
  = transform no_unicode_alnum
      (comment_line ++ import_admin_auth ++ NL :: const_x)
  /\ remove_imports no_unicode_alnum
       (comment_line ++ import_admin_auth ++ NL :: const_x)
     = comment_line ++ const_x
  /\ fst (remove_auth_from_file no_unicode_alnum route_ts
            (one_file route_ts
               (comment_line ++ import_admin_auth ++ NL :: const_x)))
     = inr true.
Proof.
  pose proof (C9_either_order no_unicode_alnum comment_line
                (NL :: const_x)
                (one_file route_ts
                   (comment_line ++ import_auth_admin ++ NL :: const_x))
                (one_file route_ts
                   (comment_line ++ import_admin_auth ++ NL :: const_x))
                route_ts (comment_line_import_free no_unicode_alnum)
                eq_refl eq_refl eq_refl eq_refl eq_refl eq_refl)
    as (_ & E2 & E & _ & R).
  split; [exact E|]. split.
  - rewrite E2. vm_compute. reflexivity.
  - rewrite R. reflexivity.
Defined.

(** ** Guards behind other code (claim C6) *)




(** ** Running the script twice (claim C3) *)


Section SecondRun.

Variable ua : char -> bool.










End SecondRun.



(** ** Unchanged text (claim C8) *)

(** C8: when the transformed text equals the text read, the call returns
    False and leaves the world as it was: no file is written and no line is
    printed. *)
Theorem C8_unchanged_text_no_action
        (ua : char -> bool) (w : world) (p : path) (c : text) :
  on_read (files w p) = inr c ->
  transform ua c = c ->
  remove_auth_from_file ua p w = (inr false, w).
Proof.
  intros Hr Ht. rewrite remove_auth_from_file_cases, Hr, Ht, text_eqb_refl.
  reflexivity.
Qed.

Lemma C8_unchanged_text_no_action_witness :
  on_read (files (one_file route_ts stripped_GET) route_ts) = inr stripped_GET /\
  transform no_unicode_alnum stripped_GET = stripped_GET /\
  remove_auth_from_file no_unicode_alnum route_ts
    (one_file route_ts stripped_GET) =
    (inr false, one_file route_ts stripped_GET).
Proof.
  split; [reflexivity|]. split; [vm_compute; reflexivity|].
  apply (C8_unchanged_text_no_action no_unicode_alnum
           (one_file route_ts stripped_GET) route_ts stripped_GET).
  - reflexivity.
  - vm_compute. reflexivity.
Defined.

(** C2, amended: when none of the four import patterns and neither guard
    pattern appears in the text read, and the text holds no three newlines
    separated by white space only, the transformed text is the text read,
    the call returns False, nothing is written and nothing is printed. *)
Theorem C2_no_pattern_no_change
        (ua : char -> bool) (w : world) (p : path) (c : text) :
  on_read (files w p) = inr c ->
  no_auth_pattern ua c = true ->
  search ua blank_lines c = false ->
  transform ua c = c /\ remove_auth_from_file ua p w = (inr false, w).
Proof.
  intros Hr Hp Hb.
  assert (E : transform ua c = c).
  { unfold transform, collapse_blank_lines.
    rewrite no_auth_pattern_steps by assumption. now apply sub_no_match. }
  split; [exact E|].
  now rewrite remove_auth_from_file_cases, Hr, E, text_eqb_refl.
Qed.

Lemma C2_no_pattern_no_change_witness :
  on_read (files (one_file route_ts stripped_GET) route_ts) = inr stripped_GET /\
  no_auth_pattern no_unicode_alnum stripped_GET = true /\
  search no_unicode_alnum blank_lines stripped_GET = false /\
  transform no_unicode_alnum stripped_GET = stripped_GET /\
  remove_auth_from_file no_unicode_alnum route_ts
    (one_file route_ts stripped_GET)
  = (inr false, one_file route_ts stripped_GET).
Proof.
  split; [reflexivity|]. split; [vm_compute; reflexivity|].
  split; [vm_compute; reflexivity|].
  apply (C2_no_pattern_no_change no_unicode_alnum
           (one_file route_ts stripped_GET) route_ts stripped_GET).
  - reflexivity.
  - vm_compute. reflexivity.
  - vm_compute. reflexivity.
Defined.

(** ** The loop over the files *)

Section LoopFacts.

Variable ua : char -> bool.

(** One turn of the loop: an exception that leaves the call leaves the
    loop. *)
Lemma count_modified_step (p : path) (rest : list path) (n : nat) (w : world) :
  count_modified ua (p :: rest) n w
  = match remove_auth_from_file ua p w with
    | (inl e, w') => (inl e, w')
    | (inr b, w') => count_modified ua rest (if b then S n else n) w'
    end.
Proof. reflexivity. Qed.

Lemma count_modified_app (l1 l2 : list path) (n : nat) (w : world) :
  count_modified ua (l1 ++ l2) n w
  = match count_modified ua l1 n w with
    | (inl e, w') => (inl e, w')
    | (inr k, w') => count_modified ua l2 k w'
    end.
Proof.
  revert n w. induction l1 as [|p l1 IH]; intros n w; [reflexivity|].
  cbn [app]. rewrite !count_modified_step.
  destruct (remove_auth_from_file ua p w) as [[e|b] w']; [reflexivity|].
  apply IH.
Qed.

Lemma remove_auth_from_file_pair (p : path) (w : world) :
  quiet w ->
  remove_auth_from_file ua p w =
  (inr (rewritten ua w p), snd (remove_auth_from_file ua p w)).
Proof.
  intros Q. rewrite <- (remove_auth_from_file_returns ua p w Q).
  now destruct (remove_auth_from_file ua p w).
Qed.

Lemma count_modified_cons (p : path) (rest : list path) (n : nat) (w : world) :
  quiet w ->
  count_modified ua (p :: rest) n w =
  count_modified ua rest (if rewritten ua w p then S n else n)
                 (snd (remove_auth_from_file ua p w)).
Proof.
  intros Q. rewrite count_modified_step.
  now rewrite (remove_auth_from_file_pair p w Q).
Qed.

(** On a console that takes every line no exception leaves the loop. *)
Lemma count_modified_returns (l : list path) (n : nat) (w : world) :
  quiet w ->
  exists k w', count_modified ua l n w = (inr k, w') /\ quiet w'.
Proof.
  revert n w. induction l as [|p l IH]; intros n w Q.
  - exists n, w. split; [reflexivity|exact Q].
  - rewrite count_modified_cons by assumption. apply IH.
    now apply call_quiet.
Qed.

Lemma loop_stdout (l : list path) (n : nat) (w : world) :
  stdout (snd (count_modified ua l n w)) = stdout w.
Proof.
  revert n w. induction l as [|p l IH]; intros n w; [reflexivity|].
  rewrite count_modified_step.
  pose proof (call_stdout ua p w) as S.
  destruct (remove_auth_from_file ua p w) as [[e|b] w']; [exact S|].
  rewrite IH. exact S.
Qed.

(** The loop touches no file outside the list, whether it ends or not. *)
Lemma loop_files_outside (l : list path) (n : nat) (w : world) (q : path) :
  ~ In q l -> files (snd (count_modified ua l n w)) q = files w q.
Proof.
  revert n w. induction l as [|p l IH]; intros n w Hq; [reflexivity|].
  rewrite count_modified_step.
  assert (F : files (snd (remove_auth_from_file ua p w)) q = files w q).
  { apply remove_auth_from_file_other. intros ->. apply Hq. now left. }
  destruct (remove_auth_from_file ua p w) as [[e|b] w']; [exact F|].
  rewrite IH by (intros H; apply Hq; now right). exact F.
Qed.

Lemma rewritten_ext (w w' : world) (q : path) :
  files w' q = files w q -> rewritten ua w' q = rewritten ua w q.
Proof. unfold rewritten. now intros ->. Qed.

Lemma report_ext (w w' : world) (p : path) :
  files w' p = files w p -> report ua w' p = report ua w p.
Proof. unfold report. now intros ->. Qed.

Lemma count_modified_counts (l : list path) (n : nat) (w : world) :
  quiet w -> NoDup l ->
  fst (count_modified ua l n w)
  = inr (n + length (filter (rewritten ua w) l))%nat.
Proof.
  revert n w. induction l as [|p l IH]; intros n w Q Hnd.
  - simpl. f_equal. lia.
  - inversion Hnd as [|? ? Hnotin Hnd']; subst.
    rewrite count_modified_cons by assumption.
    rewrite IH by (try apply call_quiet; assumption).
    assert (E : filter (rewritten ua (snd (remove_auth_from_file ua p w))) l
                = filter (rewritten ua w) l).
    { apply filter_ext_in. intros q Hq. apply rewritten_ext.
      apply remove_auth_from_file_other. intros ->. contradiction. }
    rewrite E. simpl. destruct (rewritten ua w p); simpl; f_equal; lia.
Qed.

Lemma flat_map_agree (f g : path -> list text) (l : list path) :
  (forall q, In q l -> f q = g q) -> flat_map f l = flat_map g l.
Proof.
  induction l as [|p l IH]; intros H; [reflexivity|]. simpl.
  rewrite H by now left. f_equal. apply IH. intros q Hq. apply H. now right.
Qed.

Lemma loop_console (l : list path) (n : nat) (w : world) :
  quiet w -> NoDup l ->
  console (snd (count_modified ua l n w))
  = console w ++ flat_map (report ua w) l.
Proof.
  revert n w. induction l as [|p l IH]; intros n w Q Hnd.
  - simpl. now rewrite app_nil_r.
  - inversion Hnd as [|? ? Hnotin Hnd']; subst.
    rewrite count_modified_cons by assumption.
    rewrite IH by (try apply call_quiet; assumption).
    rewrite call_console by assumption.
    cbn [flat_map]. rewrite <- app_assoc. do 2 f_equal.
    apply flat_map_agree. intros q Hq. apply report_ext.
    apply remove_auth_from_file_other. intros ->. contradiction.
Qed.

Lemma loop_files_inside (l : list path) (n : nat) (w : world) (q : path) :
  quiet w -> NoDup l -> In q l ->
  files (snd (count_modified ua l n w)) q = file_after ua (files w q).
Proof.
  revert n w. induction l as [|p l IH]; intros n w Q Hnd Hq; [destruct Hq|].
  inversion Hnd as [|? ? Hnotin Hnd']; subst.
  rewrite count_modified_cons by assumption. destruct Hq as [->|Hq].
  - rewrite loop_files_outside by assumption.
    now rewrite call_files, text_eqb_refl.
  - rewrite IH by (try apply call_quiet; assumption). f_equal.
    apply remove_auth_from_file_other. intros ->. contradiction.
Qed.

(** On any console, a loop that ends without an exception has left in
    every listed file what one call leaves in it. *)
Lemma loop_files_returned (l : list path) (n k : nat) (w w' : world)
      (q : path) :
  count_modified ua l n w = (inr k, w') -> NoDup l -> In q l ->
  files w' q = file_after ua (files w q).
Proof.
  revert n w. induction l as [|p l IH]; intros n w E Hnd Hq; [destruct Hq|].
  inversion Hnd as [|? ? Hnotin Hnd']; subst.
  rewrite count_modified_step in E.
  pose proof (fun q0 => call_files ua p q0 w) as F.
  destruct (remove_auth_from_file ua p w) as [[e|b] w1]; [discriminate|].
  cbn [snd] in F. destruct Hq as [->|Hq].
  - pose proof (loop_files_outside l (if b then S n else n) w1 q Hnotin) as O.
    rewrite E in O. cbn [snd] in O.
    now rewrite O, F, text_eqb_refl.
  - rewrite (IH _ _ E Hnd' Hq). f_equal. rewrite F.
    assert (N : q <> p) by (intros ->; contradiction).
    apply text_eqb_neq in N. now rewrite N.
Qed.

(** The count only grows, by at most one for each file. *)
Lemma loop_count_bound (l : list path) (n k : nat) (w w' : world) :
  count_modified ua l n w = (inr k, w') -> (n <= k <= n + length l)%nat.
Proof.
  revert n w. induction l as [|p l IH]; intros n w.
  - intros [= -> _]. simpl. lia.
  - rewrite count_modified_step.
    destruct (remove_auth_from_file ua p w) as [[e|b] w1]; [discriminate|].
    intros H. apply IH in H. simpl. destruct b; lia.
Qed.

(** [main]: three prints around the loop, each of which can raise. *)
Lemma main_unfold (l : list path) (w : world) :
  main ua l w
  = match stdout w (console w) (found_line (length l)) with
    | Some e => (inl e, w)
    | None =>
        match count_modified ua l 0%nat
                (World (files w) (console w ++ [found_line (length l)])
                       (stdout w)) with
        | (inl e, w1) => (inl e, w1)
        | (inr k, w1) =>
            match stdout w1 (console w1) (modified_line k) with
            | Some e => (inl e, w1)
            | None =>
                (inr tt,
                 World (files w1) (console w1 ++ [modified_line k])
                       (stdout w1))
            end
        end
    end.
Proof.
  unfold main, bind, print, found_line, modified_line.
  destruct (stdout w (console w) _); [reflexivity|].
  destruct (count_modified ua l 0%nat _) as [[e|k] w1]; [reflexivity|].
  destruct (stdout w1 (console w1) _); reflexivity.
Qed.

Lemma main_world (l : list path) (w : world) :
  quiet w ->
  exists k w1,
    count_modified ua l 0%nat
      (World (files w) (console w ++ [found_line (length l)]) (stdout w))
    = (inr k, w1)
    /\ main ua l w
       = (inr tt,
          World (files w1) (console w1 ++ [modified_line k]) (stdout w1)).
Proof.
  intros Q. rewrite main_unfold, Q.
  destruct (count_modified_returns l 0%nat
              (World (files w) (console w ++ [found_line (length l)])
                     (stdout w)) Q)
    as (k & w1 & E & Q1).
  exists k, w1. now rewrite E, Q1.
Qed.

Lemma main_files_returned (l : list path) (w : world) (q : path) :
  fst (main ua l w) = inr tt -> NoDup l -> In q l ->
  files (snd (main ua l w)) q = file_after ua (files w q).
Proof.
  rewrite main_unfold.
  destruct (stdout w (console w) (found_line (length l))); [discriminate|].
  destruct (count_modified ua l 0%nat _) as [[e|k] w1] eqn:E;
    [discriminate|].
  destruct (stdout w1 (console w1) (modified_line k)); [discriminate|].
  intros _ Hnd Hq. cbn [snd files].
  exact (loop_files_returned l 0%nat k _ w1 q E Hnd Hq).
Qed.

Lemma exit_status_zero (l : list path) (w : world) :
  quiet w -> exit_status ua l w = 0.
Proof.
  intros Q. unfold exit_status.
  destruct (main_world l w Q) as (k & w1 & _ & ->). reflexivity.
Qed.

(** The files after [main] are the files after the loop, if it was
    reached. *)
Lemma main_files_outside (l : list path) (w : world) (q : path) :
  ~ In q l -> files (snd (main ua l w)) q = files w q.
Proof.
  intros Hq. rewrite main_unfold.
  destruct (stdout w (console w) (found_line (length l))); [reflexivity|].
  pose proof (loop_files_outside l 0%nat
                (World (files w) (console w ++ [found_line (length l)])
                       (stdout w)) q Hq) as F.
  destruct (count_modified ua l 0%nat _) as [[e|k] w1]; [exact F|].
  destruct (stdout w1 (console w1) (modified_line k)); exact F.
Qed.

End LoopFacts.

(** ** Failing files (claim C7) *)

(** C7, as the specification states it, fails: on a console whose encoding
    lacks the cross that the error line starts with, the error line for the
    file that cannot be read is refused, the exception raised by [print]
    leaves the handler, the call and [main]; the exit status is 1 and the
    file that follows in the list is never processed. *)
Lemma C7_a_refused_error_line_aborts_the_run :
  exit_status no_unicode_alnum [missing_ts; route_ts]
    (latin1_world route_ts guarded_GET) = 1
  /\ console (snd (main no_unicode_alnum [missing_ts; route_ts]
                     (latin1_world route_ts guarded_GET)))
     = [found_line 2]
  /\ on_read (files (snd (main no_unicode_alnum [missing_ts; route_ts]
                            (latin1_world route_ts guarded_GET))) route_ts)
     = inr guarded_GET.
Proof. repeat split; vm_compute; reflexivity. Qed.

Section Failures.

Variable ua : char -> bool.

(** A call that fails with [e] on [p], on a console that takes the error
    line. *)
Lemma failed_call_world (w : world) (p : path) (e : exn) :
  (on_read (files w p) = inl e \/
   exists c, on_read (files w p) = inr c /\ transform ua c <> c
             /\ (on_write (files w p) = OpenFails e
                 \/ exists remains, on_write (files w p) = WriteFails e remains)) ->
  stdout w (console w) (error_line p e) = None ->
  exists fs,
    remove_auth_from_file ua p w
    = (inr false, World fs (console w ++ [error_line p e]) (stdout w))
    /\ forall q, q <> p -> fs q = files w q.
Proof.
  rewrite remove_auth_from_file_cases.
  intros [Hr | (c & Hr & Hc & [Hw | [remains Hw]])] S; rewrite Hr.
  - rewrite except_handler_cases, S. exists (files w). auto.
  - apply text_eqb_neq in Hc. rewrite Hc, Hw, except_handler_cases, S.
    exists (files w). auto.
  - apply text_eqb_neq in Hc. rewrite Hc, Hw, except_handler_cases.
    cbn [stdout console files]. rewrite S. eexists. split; [reflexivity|].
    intros q Hq. cbn beta. apply text_eqb_neq in Hq. now rewrite Hq.
Qed.

Lemma failed_file_report (w : world) (p : path) (e : exn) :
  (on_read (files w p) = inl e \/
   exists c, on_read (files w p) = inr c /\ transform ua c <> c
             /\ (on_write (files w p) = OpenFails e
                 \/ exists remains, on_write (files w p) = WriteFails e remains)) ->
  report ua w p = [error_line p e] /\ rewritten ua w p = false.
Proof.
  unfold report, rewritten.
  intros [Hr | (c & Hr & Hc & [Hw | [remains Hw]])]; rewrite Hr.
  - auto.
  - apply text_eqb_neq in Hc. now rewrite Hc, Hw.
  - apply text_eqb_neq in Hc. now rewrite Hc, Hw.
Qed.

End Failures.

(** C7, amended: when reading the file raises, or the text changed and
    writing it raises, and the console takes the error line, the call
    catches the exception: it prints the line made of the cross, the words
    Error processing, the path, a colon and the text of the exception,
    touches no other file and returns False, and the loop, having reached
    this file, goes on with the files that follow and the same count.  On a
    console that takes every line and over distinct paths, a run with such
    a file in its list ends with exit status 0, has printed that line, has
    processed every file of the list, and reports a count that leaves the
    failed file out.  (Where the console refuses the error line, the
    exception raised by [print] ends the run.) *)
Theorem C7_failure_is_caught_per_file
        (ua : char -> bool) (w : world) (p : path) (e : exn) :
  (on_read (files w p) = inl e \/
   exists c, on_read (files w p) = inr c /\ transform ua c <> c
             /\ (on_write (files w p) = OpenFails e
                 \/ exists remains, on_write (files w p) = WriteFails e remains)) ->
  stdout w (console w)
         (CROSS :: str " Error processing " ++ p ++ str ": " ++ exn_text e)
  = None ->
  (exists fs,
      remove_auth_from_file ua p w
      = (inr false,
         World fs
               (console w
                ++ [CROSS :: str " Error processing " ++ p ++ str ": "
                          ++ exn_text e])
               (stdout w))
      /\ (forall q, q <> p -> fs q = files w q)
      /\ (forall before rest n0 w0 n,
            count_modified ua before n0 w0 = (inr n, w) ->
            count_modified ua (before ++ p :: rest) n0 w0
            = count_modified ua rest n
                (World fs
                       (console w
                        ++ [CROSS :: str " Error processing " ++ p
                                  ++ str ": " ++ exn_text e])
                       (stdout w))))
  /\ (forall l,
         quiet w -> NoDup l -> In p l ->
         exit_status ua l w = 0
         /\ In (CROSS :: str " Error processing " ++ p ++ str ": "
                      ++ exn_text e)
               (console (snd (main ua l w)))
         /\ (forall q, In q l ->
                       files (snd (main ua l w)) q
                       = file_after ua (files w q))
         /\ last (console (snd (main ua l w))) []
            = NL :: str "Modified "
                 ++ decimal (length (filter (rewritten ua w) l))
                 ++ str " files"
         /\ rewritten ua w p = false).
Proof.
  intros H S. split.
  - destruct (failed_call_world ua w p e H S) as (fs & E & Hfs).
    exists fs. split; [exact E|]. split; [exact Hfs|].
    intros before rest n0 w0 n B.
    rewrite count_modified_app, B, count_modified_step.
    change (error_line p e)
      with (CROSS :: str " Error processing " ++ p ++ str ": " ++ exn_text e)
      in E.
    now rewrite E.
  - intros l Q Hnd Hin.
    destruct (failed_file_report ua w p e H) as [R F].
    destruct (main_world ua l w Q) as (k & w1 & E & M).
    pose proof (count_modified_counts ua l 0%nat
                  (World (files w) (console w ++ [found_line (length l)])
                         (stdout w)) Q Hnd) as C.
    pose proof (loop_console ua l 0%nat
                  (World (files w) (console w ++ [found_line (length l)])
                         (stdout w)) Q Hnd) as L.
    rewrite E in C, L. cbn [fst snd console] in C, L. injection C as ->.
    split; [now apply exit_status_zero|]. rewrite M. cbn [snd console files].
    split; [|split; [|split; [|exact F]]].
    + rewrite L. apply in_or_app. left. apply in_or_app. right.
      apply in_flat_map. exists p. split; [exact Hin|].
      change (report ua (World (files w)
                (console w ++ [found_line (length l)]) (stdout w)) p)
        with (report ua w p).
      rewrite R. now left.
    + intros q Hq.
      pose proof (loop_files_inside ua l 0%nat
                    (World (files w) (console w ++ [found_line (length l)])
                           (stdout w)) q Q Hnd Hq) as G.
      rewrite E in G. exact G.
    + rewrite last_last. reflexivity.
Qed.

Lemma C7_failure_is_caught_per_file_witness :
  fst (remove_auth_from_file no_unicode_alnum missing_ts
         (one_file route_ts guarded_GET)) = inr false
  /\ exit_status no_unicode_alnum [missing_ts; route_ts]
       (one_file route_ts guarded_GET) = 0
  /\ In (CROSS :: str " Error processing " ++ missing_ts ++ str ": "
               ++ str "No such file or directory")
        (console (snd (main no_unicode_alnum [missing_ts; route_ts]
                         (one_file route_ts guarded_GET))))
  /\ files (snd (main no_unicode_alnum [missing_ts; route_ts]
                   (one_file route_ts guarded_GET))) route_ts
     = File (inr stripped_GET) Written.
Proof.
  assert (Hnd : NoDup [missing_ts; route_ts]).
  { repeat constructor; simpl; [|tauto].
    intros [H|[]]. vm_compute in H. discriminate. }
  destruct (C7_failure_is_caught_per_file no_unicode_alnum
              (one_file route_ts guarded_GET) missing_ts
              (Exn (str "No such file or directory"))
              (or_introl eq_refl) eq_refl)
    as [(fs & C & _) M].
  destruct (M [missing_ts; route_ts] (fun _ _ => eq_refl) Hnd
              (or_introl eq_refl))
    as (E & I & F & _).
  split; [exact (f_equal fst C)|]. split; [exact E|]. split; [exact I|].
  rewrite (F route_ts (or_intror (or_introl eq_refl))).
  vm_compute. reflexivity.
Defined.

(** ** The returned flag and the count (claim C10) *)

(** C10, as the specification states it, fails: on a console whose encoding
    lacks the check mark and the cross, the call on a file with a guard
    rewrites the file and then returns neither True nor False: the success
    line is refused, the handler's error line is refused as well, and the
    exception leaves the call; the rewritten file is never counted. *)
Lemma C10_rewritten_file_without_a_flag :
  fst (remove_auth_from_file no_unicode_alnum route_ts
         (latin1_world route_ts guarded_GET))
  = inl (Exn (str "'latin-1' codec can't encode character"))
  /\ on_read (files (snd (remove_auth_from_file no_unicode_alnum route_ts
                            (latin1_world route_ts guarded_GET))) route_ts)
     = inr stripped_GET
  /\ exit_status no_unicode_alnum [route_ts]
       (latin1_world route_ts guarded_GET) = 1.
Proof. repeat split; vm_compute; reflexivity. Qed.

(** C10, amended: on a console that takes every line the call never
    raises; it returns True exactly for a file that was read, whose
    transformed text differs from the text read, and whose write raised
    nothing, and False otherwise, for unchanged and for failing files
    alike; and over a list of distinct paths the loop's count, which the
    last line printed by [main] reports, is the number of such files.  On
    any console, True is returned only behind a rewrite: the file then
    holds the transformed text.  (A success line that the console refuses
    makes the call return False, or raise, behind a rewrite.) *)
Theorem C10_flag_and_count
        (ua : char -> bool) (l : list path) (w : world) :
  quiet w ->
  NoDup l ->
  (forall p w0,
      quiet w0 ->
      (fst (remove_auth_from_file ua p w0) = inr true <->
       exists c, on_read (files w0 p) = inr c /\ transform ua c <> c
                 /\ on_write (files w0 p) = Written))
  /\ (forall p w0,
        quiet w0 ->
        (fst (remove_auth_from_file ua p w0) = inr false <->
         ~ exists c, on_read (files w0 p) = inr c /\ transform ua c <> c
                     /\ on_write (files w0 p) = Written))
  /\ (forall p w0,
        fst (remove_auth_from_file ua p w0) = inr true ->
        exists c, on_read (files w0 p) = inr c /\ transform ua c <> c
                  /\ on_read (files (snd (remove_auth_from_file ua p w0)) p)
                     = inr (transform ua c))
  /\ fst (count_modified ua l 0%nat w)
     = inr (length (filter (rewritten ua w) l))
  /\ (exists w',
        main ua l w = (inr tt, w')
        /\ last (console w') []
           = NL :: str "Modified "
                ++ decimal (length (filter (rewritten ua w) l))
                ++ str " files").
Proof.
  intros Q Hnd.
  assert (R : forall p w0,
             rewritten ua w0 p = true <->
             exists c, on_read (files w0 p) = inr c /\ transform ua c <> c
                       /\ on_write (files w0 p) = Written).
  { intros p w0. unfold rewritten.
    destruct (on_read (files w0 p)) as [e|c].
    - split; [discriminate|]. intros (c & Hc & _). discriminate.
    - destruct (on_write (files w0 p)) as [|e|e remains].
      + rewrite negb_true_iff, text_eqb_neq. split.
        * intros Hc. exists c. auto.
        * intros (c' & [= <-] & Hc & _). exact Hc.
      + split; [discriminate|]. intros (c' & _ & _ & Hw). discriminate.
      + split; [discriminate|]. intros (c' & _ & _ & Hw). discriminate. }
  split; [|split; [|split; [|split]]].
  - intros p w0 Q0. rewrite remove_auth_from_file_returns, <- R by assumption.
    split; congruence.
  - intros p w0 Q0. rewrite remove_auth_from_file_returns, <- R by assumption.
    destruct (rewritten ua w0 p); split; congruence.
  - intros p w0 T. apply flag_true_cases in T as (c & Hr & Hc & Hw & _).
    exists c. split; [exact Hr|]. split; [exact Hc|].
    rewrite call_files, text_eqb_refl. unfold file_after.
    rewrite Hr, Hw. apply text_eqb_neq in Hc. now rewrite Hc.
  - now rewrite count_modified_counts.
  - destruct (main_world ua l w Q) as (k & w1 & E & M).
    pose proof (count_modified_counts ua l 0%nat
                  (World (files w) (console w ++ [found_line (length l)])
                         (stdout w)) Q Hnd) as C.
    rewrite E in C. cbn [fst] in C. injection C as ->.
    eexists. split; [exact M|]. cbn [console]. rewrite last_last.
    reflexivity.
Qed.

Lemma C10_flag_and_count_witness :
  NoDup [missing_ts; route_ts] /\
  fst (count_modified no_unicode_alnum [missing_ts; route_ts] 0%nat
         (one_file route_ts guarded_GET))
  = inr 1%nat.
Proof.
  assert (Hnd : NoDup [missing_ts; route_ts]).
  { repeat constructor; simpl; [|tauto].
    intros [H|[]]. vm_compute in H. discriminate. }
  split; [exact Hnd|].
  exact (proj1 (proj2 (proj2 (proj2
           (C10_flag_and_count no_unicode_alnum [missing_ts; route_ts]
              (one_file route_ts guarded_GET) (fun _ _ => eq_refl) Hnd))))).
Defined.

(** ** Further properties of the calls and of a run *)

(** X1: for a file that can be read and written, the text is left as it is
    exactly when none of the seven patterns (four imports, two guards, three
    newlines) appears in it; so the call rewrites the file and, where the
    console takes the success line, returns True exactly when one of them
    appears. *)
Theorem X1_rewritten_iff_a_pattern_appears
        (ua : char -> bool) (w : world) (p : path) (c : text) :
  on_read (files w p) = inr c ->
  on_write (files w p) = Written ->
  (transform ua c = c <->
   no_auth_pattern ua c = true /\ search ua blank_lines c = false)
  /\ (fst (remove_auth_from_file ua p w) = inr true <->
      (no_auth_pattern ua c = false \/ search ua blank_lines c = true)
      /\ stdout w (console w) (removed_line p) = None).
Proof.
  intros Hr Hw.
  assert (T : transform ua c = c <->
              no_auth_pattern ua c = true /\ search ua blank_lines c = false).
  { split; [apply transform_fixed|]. intros [Hp Hb].
    unfold transform, collapse_blank_lines.
    rewrite no_auth_pattern_steps by assumption. now apply sub_no_match. }
  split; [exact T|].
  rewrite flag_true_cases. split.
  - intros (c' & E & N & _ & S). rewrite Hr in E. injection E as <-.
    split; [|exact S].
    destruct (no_auth_pattern ua c) eqn:Hp; [|now left].
    destruct (search ua blank_lines c) eqn:Hb; [now right|].
    elim N. now apply T.
  - intros [P S]. exists c. repeat split; try assumption.
    intros E. apply T in E as [E1 E2]. rewrite E1, E2 in P.
    destruct P; discriminate.
Qed.

Lemma X1_rewritten_iff_a_pattern_appears_witness :
  (fst (remove_auth_from_file no_unicode_alnum route_ts
          (one_file route_ts guarded_GET)) = inr true <->
   (no_auth_pattern no_unicode_alnum guarded_GET = false
    \/ search no_unicode_alnum blank_lines guarded_GET = true)
   /\ stdout (one_file route_ts guarded_GET)
             (console (one_file route_ts guarded_GET))
             (removed_line route_ts) = None).
Proof.
  exact (proj2 (X1_rewritten_iff_a_pattern_appears no_unicode_alnum
                  (one_file route_ts guarded_GET) route_ts guarded_GET
                  eq_refl eq_refl)).
Defined.

(** X4: on a console that takes every line and over a list of distinct
    paths, what [main] prints is: the line with the number of files found,
    then for each file in the order of the list one success line if it was
    rewritten, one error line if reading or writing it raised, and nothing
    if its text did not change, and last the line with the number of
    rewritten files. *)
Theorem X4_console_of_a_run (ua : char -> bool) (l : list path) (w : world) :
  quiet w ->
  NoDup l ->
  console (snd (main ua l w))
  = console w ++ [found_line (length l)] ++ flat_map (report ua w) l
    ++ [modified_line (length (filter (rewritten ua w) l))].
Proof.
  intros Q Hnd. destruct (main_world ua l w Q) as (k & w1 & E & ->).
  pose proof (count_modified_counts ua l 0%nat
                (World (files w) (console w ++ [found_line (length l)])
                       (stdout w)) Q Hnd) as C.
  pose proof (loop_console ua l 0%nat
                (World (files w) (console w ++ [found_line (length l)])
                       (stdout w)) Q Hnd) as L.
  rewrite E in C, L. cbn [fst snd console] in *.
  injection C as ->. rewrite L, <- !app_assoc. reflexivity.
Qed.

Lemma X4_console_of_a_run_witness :
  console (snd (main no_unicode_alnum [missing_ts; route_ts]
                  (one_file route_ts guarded_GET)))
  = console (one_file route_ts guarded_GET) ++ [found_line 2]
    ++ flat_map (report no_unicode_alnum (one_file route_ts guarded_GET))
         [missing_ts; route_ts]
    ++ [modified_line
          (length (filter (rewritten no_unicode_alnum
                             (one_file route_ts guarded_GET))
                          [missing_ts; route_ts]))].
Proof.
  assert (Hnd : NoDup [missing_ts; route_ts]).
  { repeat constructor; simpl; [|tauto].
    intros [H|[]]. vm_compute in H. discriminate. }
  exact (X4_console_of_a_run no_unicode_alnum [missing_ts; route_ts]
           (one_file route_ts guarded_GET) (fun _ _ => eq_refl) Hnd).
Defined.

(** X5: a run leaves every file that is not in the list as it was. *)
Theorem X5_files_outside_the_list_untouched
        (ua : char -> bool) (l : list path) (w : world) (q : path) :
  ~ In q l -> files (snd (main ua l w)) q = files w q.
Proof. apply main_files_outside. Qed.

Lemma X5_files_outside_the_list_untouched_witness :
  files (snd (main no_unicode_alnum [route_ts] two_files)) (str "plain.ts")
  = files two_files (str "plain.ts").
Proof.
  apply (X5_files_outside_the_list_untouched no_unicode_alnum [route_ts]
           two_files (str "plain.ts")).
  intros [H|[]]. vm_compute in H. discriminate.
Defined.

(** X6: on any console and over a list of distinct paths, a run that ends
    without an exception (as every run does on a console that takes every
    line) leaves in every listed file what one call leaves in it: the
    transformed text if the text changed and the write succeeded; what the
    failed write left if the write raised after truncating; and the file
    as it was otherwise (unreadable, unchanged, or not openable for
    writing). *)
Theorem X6_files_of_the_list_after_a_run
        (ua : char -> bool) (l : list path) (w : world) (q : path) :
  NoDup l -> In q l ->
  (quiet w -> fst (main ua l w) = inr tt)
  /\ (fst (main ua l w) = inr tt ->
      files (snd (main ua l w)) q = file_after ua (files w q)).
Proof.
  intros Hnd Hq. split.
  - intros Q. destruct (main_world ua l w Q) as (k & w1 & _ & ->).
    reflexivity.
  - intros R. now apply main_files_returned.
Qed.

Lemma X6_files_of_the_list_after_a_run_witness :
  files (snd (main no_unicode_alnum [route_ts; str "plain.ts"] two_files))
        route_ts
  = File (inr stripped_GET) Written.
Proof.
  assert (Hnd : NoDup [route_ts; str "plain.ts"]).
  { repeat constructor; simpl; [|tauto].
    intros [H|[]]. vm_compute in H. discriminate. }
  destruct (X6_files_of_the_list_after_a_run no_unicode_alnum
              [route_ts; str "plain.ts"] two_files route_ts
              Hnd (or_introl eq_refl)) as [R F].
  rewrite (F (R (fun _ _ => eq_refl))).
  vm_compute. reflexivity.
Defined.

(** X7: on a console that takes every line a run ends without an
    exception; and whenever a run ends without an exception, its last line
    reports a number of modified files that is at most the number of files
    found. *)
Theorem X7_modified_at_most_found
        (ua : char -> bool) (l : list path) (w : world) :
  (quiet w -> exists w', main ua l w = (inr tt, w'))
  /\ (forall w', main ua l w = (inr tt, w') ->
                 exists k, last (console w') [] = modified_line k
                           /\ (k <= length l)%nat).
Proof.
  split.
  - intros Q. destruct (main_world ua l w Q) as (k & w1 & _ & ->). eauto.
  - intros w'. rewrite main_unfold.
    destruct (stdout w (console w) (found_line (length l))); [discriminate|].
    destruct (count_modified ua l 0%nat _) as [[e|k] w1] eqn:E;
      [discriminate|].
    destruct (stdout w1 (console w1) (modified_line k)); [discriminate|].
    intros [= <-]. exists k. cbn [console]. rewrite last_last.
    split; [reflexivity|]. apply loop_count_bound in E. lia.
Qed.

Lemma X7_modified_at_most_found_witness :
  exists k,
    last (console (snd (main no_unicode_alnum [missing_ts; route_ts]
                          (one_file route_ts guarded_GET)))) []
    = modified_line k
    /\ (k <= 2)%nat.
Proof.
  destruct (X7_modified_at_most_found no_unicode_alnum
              [missing_ts; route_ts] (one_file route_ts guarded_GET))
    as [R B].
  destruct (R (fun _ _ => eq_refl)) as [w' E].
  destruct (B w' E) as (k & L & Hk).
  exists k. rewrite E. split; [exact L|exact Hk].
Defined.

(** X11: a file that the call rewrote reads back as the transformed text;
    and when the transformation changes that text no further, a second
    call on the file returns False, writes nothing and prints nothing. *)
Theorem X11_second_call_after_a_rewrite
        (ua : char -> bool) (w : world) (p : path) (c : text) :
  on_read (files w p) = inr c ->
  on_write (files w p) = Written ->
  transform ua c <> c ->
  transform ua (transform ua c) = transform ua c ->
  on_read (files (snd (remove_auth_from_file ua p w)) p)
  = inr (transform ua c)
  /\ remove_auth_from_file ua p (snd (remove_auth_from_file ua p w))
     = (inr false, snd (remove_auth_from_file ua p w)).
Proof.
  intros Hr Hw Hc Hi.
  assert (R : on_read (files (snd (remove_auth_from_file ua p w)) p)
              = inr (transform ua c)).
  { rewrite call_files, text_eqb_refl. unfold file_after.
    rewrite Hr, Hw. apply text_eqb_neq in Hc. now rewrite Hc. }
  split; [exact R|].
  rewrite (remove_auth_from_file_cases ua p (snd _)), R, Hi, text_eqb_refl.
  reflexivity.
Qed.

Lemma X11_second_call_after_a_rewrite_witness :
  remove_auth_from_file no_unicode_alnum route_ts
    (snd (remove_auth_from_file no_unicode_alnum route_ts
            (one_file route_ts guarded_GET)))
  = (inr false,
     snd (remove_auth_from_file no_unicode_alnum route_ts
            (one_file route_ts guarded_GET))).
Proof.
  refine (proj2 (X11_second_call_after_a_rewrite no_unicode_alnum
                   (one_file route_ts guarded_GET) route_ts guarded_GET
                   eq_refl eq_refl _ _)).
  - vm_compute. discriminate.
  - vm_compute. reflexivity.
Defined.

(** ** The scan always advances *)

Section Summary.

Variable ua : char -> bool.

(** Every pattern of the script consumes text: the scan of [re.sub] never
    meets an empty match. *)
Lemma patterns_consume (p : regex) (s : text) (g : caps) (r : text) :
  In p (auth_imports ++ auth_check_patterns ++ [blank_lines]) ->
  match_at ua p s (None, None) = Some (g, r) ->
  (length r < length s)%nat.
Proof.
  intros Hin E. apply match_at_length in E.
  assert (L : (1 <= min_len p)%nat).
  { simpl in Hin.
    destruct Hin as [<-|[<-|[<-|[<-|[<-|[<-|[<-|[]]]]]]]]; vm_compute; lia. }
  lia.
Qed.

End Summary.

(** ** Sample runs

    The values below were checked against Python's [re] on the same
    inputs. *)

Example collapse_spaced_run :
  collapse_blank_lines no_unicode_alnum spaced_run = spaced_run_collapsed.
Proof. vm_compute. reflexivity. Qed.

Example file_start_keeps_two_newlines :
  transform no_unicode_alnum ([NL; NL; NL] ++ str "b") = [NL; NL] ++ str "b".
Proof. vm_compute. reflexivity. Qed.

Example late_guard_is_kept :
  transform no_unicode_alnum late_guard = late_guard.
Proof. vm_compute. reflexivity. Qed.

Example decimal_120 : decimal 120 = str "120".
Proof. vm_compute. reflexivity. Qed.

Example locked_file_run :
  remove_auth_from_file no_unicode_alnum route_ts
    (locked_file route_ts guarded_GET)
  = (inr false,
     World (files (locked_file route_ts guarded_GET))
           [error_line route_ts (Exn (str "Permission denied"))]
           (fun _ _ => None)).
Proof. rewrite remove_auth_from_file_cases. vm_compute. reflexivity. Qed.

Example main_run :
  console (snd (main no_unicode_alnum [missing_ts; route_ts]
                  (one_file route_ts guarded_GET)))
  = [ str "Found 2 TypeScript files in API directory";
      error_line missing_ts (Exn (str "No such file or directory"));
      removed_line route_ts;
      NL :: str "Modified 1 files" ].
Proof. vm_compute. reflexivity. Qed.

